(** * go-orange: the peer set of the [ong] protocol handler, the reorg
    preservation predicate of the full node service and the fast-sync switch.

    Sources embedded here, all of package [ong]:
    - the type [peerSet] and its methods,
    - the types [ongPeer] and [snapPeer] ([ong/peer.go]),
    - [Orange.isLocalBlock] and [Orange.shouldPreserve],
    - [testFastSyncDisabling] ([ong/sync_test.go]), which reads the
      [fastSync] flag of the handler. *)

From Stdlib Require Import ZArith Lia.
From stdpp Require Import gmap strings list fin_maps.

Open Scope Z_scope.

(** ** Machine integers

    Go's [int] is a 64 bit two's complement integer on the platforms the node
    runs on; [++] and [--] wrap around silently. *)

Definition maxInt : Z := 2 ^ 63 - 1.
Definition minInt : Z := - 2 ^ 63.

Definition wrapInt (z : Z) : Z := (z + 2 ^ 63) mod 2 ^ 64 - 2 ^ 63.

(** ** Peers *)

Module PeerSet.

(** [common.Hash] is a 32 byte array; it is read here as a 256 bit number. *)
Definition Hash : Type := N.

(** [big.Int] total difficulties are unbounded integers. *)
Definition TD : Type := Z.

(** Channels of type [chan *snap.Peer] are unbuffered; a channel value is a
    handle that [make] hands out. *)
Definition chan : Type := nat.

Inductive error : Type :=
| errPeerSetClosed
| errPeerAlreadyRegistered
| errPeerNotRegistered
| errSnapWithoutOng.

#[global] Instance error_eq_dec : EqDecision error.
Proof. solve_decision. Defined.

(** An [*ong.Peer] as the peer set observes it. The type lives in package
    [ong/protocols/ong]; the fields below are what its methods return:
    [ID()], [RunningCap(snap.ProtocolName, snap.ProtocolVersions)],
    [Head()], [KnownBlock(h)] and [KnownTransaction(h)] (membership in the
    peer's bounded sets of known hashes). *)
Record OngProtoPeer : Type := mkOngProtoPeer {
  op_id : string;
  op_runningSnap : bool;
  op_head : Hash;
  op_td : TD;
  op_knownBlocks : gset N;
  op_knownTxs : gset N
}.

(** A [*snap.Peer] as the peer set observes it: [ID()], [Version()] and
    [RunningCap(ong.ProtocolName, ong.ProtocolVersions)]. *)
Record SnapProtoPeer : Type := mkSnapProtoPeer {
  sp_id : string;
  sp_version : nat;
  sp_runningOng : bool
}.

#[global] Instance OngProtoPeer_eq_dec : EqDecision OngProtoPeer.
Proof. solve_decision. Defined.
#[global] Instance SnapProtoPeer_eq_dec : EqDecision SnapProtoPeer.
Proof. solve_decision. Defined.

(** [snapPeer] wraps a [snap.Peer]. *)
Record snapPeer : Type := mkSnapPeer { snap_Peer : SnapProtoPeer }.

#[global] Instance snapPeer_eq_dec : EqDecision snapPeer.
Proof. solve_decision. Defined.

(** [ongPeer] wraps an [ong.Peer] and carries the satellite connection. The
    timer, the notification channel and the mutex of the Go struct are not
    touched by the peer set. *)
Record ongPeer : Type := mkOngPeer {
  Peer : OngProtoPeer;
  snapExt : option snapPeer
}.

#[global] Instance ongPeer_eq_dec : EqDecision ongPeer.
Proof. solve_decision. Defined.

Definition ID (p : ongPeer) : string := op_id (Peer p).
Definition Head (p : ongPeer) : Hash * TD := (op_head (Peer p), op_td (Peer p)).
Definition KnownBlock (p : ongPeer) (hash : Hash) : bool :=
  bool_decide (hash ∈ op_knownBlocks (Peer p)).
Definition KnownTransaction (p : ongPeer) (hash : Hash) : bool :=
  bool_decide (hash ∈ op_knownTxs (Peer p)).

(** ** The peer set *)

Record peerSet : Type := mkPeerSet {
  peers : gmap string ongPeer;
  snapPeers : Z;
  snapWait : gmap string chan;
  snapPend : gmap string SnapProtoPeer;
  closed : bool
}.

Definition newPeerSet : peerSet :=
  {| peers := ∅; snapPeers := 0; snapWait := ∅; snapPend := ∅; closed := false |}.

Definition set_peers (f : gmap string ongPeer -> gmap string ongPeer) (ps : peerSet) :=
  {| peers := f (peers ps); snapPeers := snapPeers ps; snapWait := snapWait ps;
     snapPend := snapPend ps; closed := closed ps |}.
Definition set_snapPeers (f : Z -> Z) (ps : peerSet) :=
  {| peers := peers ps; snapPeers := f (snapPeers ps); snapWait := snapWait ps;
     snapPend := snapPend ps; closed := closed ps |}.
Definition set_snapWait (f : gmap string chan -> gmap string chan) (ps : peerSet) :=
  {| peers := peers ps; snapPeers := snapPeers ps; snapWait := f (snapWait ps);
     snapPend := snapPend ps; closed := closed ps |}.
Definition set_snapPend
    (f : gmap string SnapProtoPeer -> gmap string SnapProtoPeer) (ps : peerSet) :=
  {| peers := peers ps; snapPeers := snapPeers ps; snapWait := snapWait ps;
     snapPend := f (snapPend ps); closed := closed ps |}.
Definition set_closed (b : bool) (ps : peerSet) :=
  {| peers := peers ps; snapPeers := snapPeers ps; snapWait := snapWait ps;
     snapPend := snapPend ps; closed := b |}.

(** What [registerSnapExtension] does besides updating the set: the error it
    returns and, on the hand-off path, the send [wait <- peer] it performs. *)
Record snapExtResult : Type := mkSnapExtResult {
  se_set : peerSet;
  se_err : option error;
  se_send : option (chan * SnapProtoPeer)
}.

Definition registerSnapExtension (peer : SnapProtoPeer) (ps : peerSet) : snapExtResult :=
  if negb (sp_runningOng peer) then mkSnapExtResult ps (Some errSnapWithoutOng) None
  else
    let id := sp_id peer in
    match peers ps !! id with
    | Some _ => mkSnapExtResult ps (Some errPeerAlreadyRegistered) None
    | None =>
      match snapPend ps !! id with
      | Some _ => mkSnapExtResult ps (Some errPeerAlreadyRegistered) None
      | None =>
        match snapWait ps !! id with
        | Some wait =>
            mkSnapExtResult (set_snapWait (delete id) ps) None (Some (wait, peer))
        | None =>
            mkSnapExtResult (set_snapPend <[id := peer]> ps) None None
        end
      end
    end.

(** How a call of [waitSnapExtension] leaves the lock: it either returns, or
    it goes on to the receive [<-wait] on the channel it has just stored. *)
Inductive waitOutcome : Type :=
| WaitReturn (ext : option SnapProtoPeer) (err : option error)
| WaitRecv (wait : chan).

(** [wait] is the channel that [make(chan *snap.Peer)] returns in this call. *)
Definition waitSnapExtension (peer : OngProtoPeer) (wait : chan) (ps : peerSet)
  : peerSet * waitOutcome :=
  if negb (op_runningSnap peer) then (ps, WaitReturn None None)
  else
    let id := op_id peer in
    match peers ps !! id with
    | Some _ => (ps, WaitReturn None (Some errPeerAlreadyRegistered))
    | None =>
      match snapWait ps !! id with
      | Some _ => (ps, WaitReturn None (Some errPeerAlreadyRegistered))
      | None =>
        match snapPend ps !! id with
        | Some snap => (set_snapPend (delete id) ps, WaitReturn (Some snap) None)
        | None => (set_snapWait <[id := wait]> ps, WaitRecv wait)
        end
      end
    end.

Definition registerPeer (peer : OngProtoPeer) (ext : option SnapProtoPeer) (ps : peerSet)
  : peerSet * option error :=
  if closed ps then (ps, Some errPeerSetClosed)
  else
    let id := op_id peer in
    match peers ps !! id with
    | Some _ => (ps, Some errPeerAlreadyRegistered)
    | None =>
      match ext with
      | Some e =>
          let ong := {| Peer := peer; snapExt := Some (mkSnapPeer e) |} in
          (set_peers <[id := ong]> (set_snapPeers (fun n => wrapInt (n + 1)) ps), None)
      | None =>
          let ong := {| Peer := peer; snapExt := None |} in
          (set_peers <[id := ong]> ps, None)
      end
    end.

Definition unregisterPeer (id : string) (ps : peerSet) : peerSet * option error :=
  match peers ps !! id with
  | None => (ps, Some errPeerNotRegistered)
  | Some peer =>
    let ps' := set_peers (delete id) ps in
    match snapExt peer with
    | Some _ => (set_snapPeers (fun n => wrapInt (n - 1)) ps', None)
    | None => (ps', None)
    end
  end.

Definition peer (id : string) (ps : peerSet) : option ongPeer := peers ps !! id.

(** A [for _, p := range ps.peers] loop visits every entry of the map once, in
    an order the runtime picks: any permutation of the entries. *)
Definition rangeOrder (m : gmap string ongPeer) (order : list (string * ongPeer)) : Prop :=
  order ≡ₚ map_to_list m.

(** The loops below are written over the order the [range] statement takes. *)
Definition peersWithoutBlock (order : list (string * ongPeer)) (hash : Hash) : list ongPeer :=
  fold_left (fun list p => if negb (KnownBlock p hash) then list ++ [p] else list)
            (order.*2) [].

Definition peersWithoutTransaction (order : list (string * ongPeer)) (hash : Hash)
  : list ongPeer :=
  fold_left (fun list p => if negb (KnownTransaction p hash) then list ++ [p] else list)
            (order.*2) [].

Definition len (ps : peerSet) : Z := Z.of_nat (size (peers ps)).

Definition snapLen (ps : peerSet) : Z := snapPeers ps.

(** The loop state of [peerWithHighestTD]: [bestPeer] and [bestTd]. *)
Definition highestStep (best : option (OngProtoPeer * TD)) (p : ongPeer)
  : option (OngProtoPeer * TD) :=
  let td := (Head p).2 in
  match best with
  | None => Some (Peer p, td)
  | Some (_, bestTd) =>
      match td ?= bestTd with
      | Gt => Some (Peer p, td)
      | _ => best
      end
  end.

Definition peerWithHighestTD (order : list (string * ongPeer)) : option OngProtoPeer :=
  fst <$> fold_left highestStep (order.*2) None.

(** [close] asks every peer to disconnect with reason [DiscQuitting] and sets
    the flag; the disconnect requests go to the p2p layer. *)
Definition closeDisconnects (order : list (string * ongPeer)) : list string :=
  ID <$> order.*2.

Definition close (ps : peerSet) : peerSet := set_closed true ps.

(** The quantity the counter [snapPeers] is meant to track: the number of
    registered peers that carry a [snap] extension. *)
Definition hasSnapExt (kv : string * ongPeer) : Prop := is_Some (snapExt kv.2).

#[global] Instance hasSnapExt_dec kv : Decision (hasSnapExt kv).
Proof. unfold hasSnapExt. apply _. Defined.

Definition snapCount (m : gmap string ongPeer) : nat := size (filter hasSnapExt m).

Definition snapInv (ps : peerSet) : Prop :=
  snapPeers ps = Z.of_nat (snapCount (peers ps)).

(** Position [i] of an iteration holds the peer [p], no visited peer has a
    higher total difficulty, and every peer visited earlier has a lower one. *)
Definition isFirstHighest (l : list ongPeer) (i : nat) (p : ongPeer) : Prop :=
  l !! i = Some p /\
  (forall j q, l !! j = Some q -> op_td (Peer q) <= op_td (Peer p)) /\
  (forall j q, (j < i)%nat -> l !! j = Some q -> op_td (Peer q) < op_td (Peer p)).

(** No id has both a waiter and a pending extension. *)
Definition pendWaitDisjoint (ps : peerSet) : Prop :=
  forall id, is_Some (snapPend ps !! id) -> snapWait ps !! id = None.

(** Sample peers used to exercise the operations. *)
Definition peerA : OngProtoPeer := mkOngProtoPeer "a" true 1%N 10 {[ 7%N ]} ∅.
Definition peerB : OngProtoPeer := mkOngProtoPeer "b" false 2%N 10 ∅ {[ 9%N ]}.
Definition peerC : OngProtoPeer := mkOngProtoPeer "c" true 3%N 4 ∅ ∅.
Definition snapA : SnapProtoPeer := mkSnapProtoPeer "a" 1 true.
Definition snapC : SnapProtoPeer := mkSnapProtoPeer "c" 1 true.

(** Sample states: a closed set that holds peer [a]; a set where the [snap]
    connection of [a] is pending and [a] has been registered without it; a
    closed set without any entry. *)
Definition closedWithA : peerSet := close (registerPeer peerA None newPeerSet).1.

Definition pendingAndRegisteredA : peerSet :=
  (registerPeer peerA None (se_set (registerSnapExtension snapA newPeerSet))).1.

(** A set with three peers; [a] and [b] advertise the same total difficulty. *)
Definition threePeers : peerSet :=
  (registerPeer peerC (Some snapC)
     (registerPeer peerB None (registerPeer peerA None newPeerSet).1).1).1.

(** A closed set in which the [ong] side of [a] waits for its extension. *)
Definition closedWaitingA : peerSet := close (waitSnapExtension peerA 0%nat newPeerSet).1.

End PeerSet.

(** ** Goroutines blocked in [waitSnapExtension]

    Every method body runs under [ps.lock], so calls are atomic up to the
    point where the lock is released. The one statement executed outside the
    lock is the receive [<-wait]: the caller is parked on its channel until
    some [registerSnapExtension] performs the matching send. A world is the
    peer set together with the parked callers. *)

Module World.
Import PeerSet.

Record world : Type := mkWorld {
  w_set : peerSet;
  w_parked : gset chan;                  (* callers blocked at [<-wait] *)
  w_received : gmap chan SnapProtoPeer;  (* callers that returned [(v, nil)] from [<-wait] *)
  w_next : chan                          (* the handle the next [make] returns *)
}.

Definition newWorld : world :=
  {| w_set := newPeerSet; w_parked := ∅; w_received := ∅; w_next := 0%nat |}.

Inductive call : Type :=
| RegisterSnapExtension (peer : SnapProtoPeer)
| WaitSnapExtension (peer : OngProtoPeer)
| RegisterPeer (peer : OngProtoPeer) (ext : option SnapProtoPeer)
| UnregisterPeer (id : string)
| Close.

Definition run (c : call) (w : world) : world :=
  match c with
  | RegisterSnapExtension peer =>
      let r := registerSnapExtension peer (w_set w) in
      match se_send r with
      | Some (wait, v) =>
          {| w_set := se_set r; w_parked := w_parked w ∖ {[wait]};
             w_received := <[wait := v]> (w_received w); w_next := w_next w |}
      | None =>
          {| w_set := se_set r; w_parked := w_parked w;
             w_received := w_received w; w_next := w_next w |}
      end
  | WaitSnapExtension peer =>
      match waitSnapExtension peer (w_next w) (w_set w) with
      | (ps, WaitRecv wait) =>
          {| w_set := ps; w_parked := {[wait]} ∪ w_parked w;
             w_received := w_received w; w_next := S (w_next w) |}
      | (ps, WaitReturn _ _) =>
          {| w_set := ps; w_parked := w_parked w;
             w_received := w_received w; w_next := w_next w |}
      end
  | RegisterPeer peer ext =>
      {| w_set := (registerPeer peer ext (w_set w)).1; w_parked := w_parked w;
         w_received := w_received w; w_next := w_next w |}
  | UnregisterPeer id =>
      {| w_set := (unregisterPeer id (w_set w)).1; w_parked := w_parked w;
         w_received := w_received w; w_next := w_next w |}
  | Close =>
      {| w_set := close (w_set w); w_parked := w_parked w;
         w_received := w_received w; w_next := w_next w |}
  end.

Definition runs (cs : list call) (w : world) : world :=
  fold_left (fun w c => run c w) cs w.

Definition isRegisterSnapExtension (c : call) : bool :=
  match c with RegisterSnapExtension _ => true | _ => false end.

(** The [ong] side of [a] has called [waitSnapExtension] on a fresh set, then
    the set was closed. *)
Definition closedWhileWaitingA : world :=
  run Close (run (WaitSnapExtension peerA) newWorld).

End World.

(** ** The reorg preservation predicate of the full node *)

Module Backend.

(** [common.Address] is a 20 byte array, read as a 160 bit number. *)
Definition Address : Type := N.

Record Header : Type := mkHeader {
  Number : N;
  Coinbase : Address;
  Extra : list N
}.

Record Block : Type := mkBlock { header : Header }.

(** The engines [CreateConsensusEngine] builds: proof-of-authority when the
    chain configuration asks for it, proof-of-work otherwise. *)
Inductive engineType : Type := Clique | Ongash.

Inductive engineError : Type := errAuthor.

(** [consensus.Engine], as far as [backend.go] calls it: the dynamic type,
    which the type assertion on [s.engine] against the clique engine inspects, and
    [Author], which may fail. *)
Record Engine : Type := mkEngine {
  engineKind : engineType;
  Author : Header -> Address + engineError
}.

Record Orange : Type := mkOrange {
  engine : Engine;
  ongerbase : Address;
  TxPool_Locals : list Address      (* [s.config.TxPool.Locals] *)
}.

(** The loop [for _, account := range s.config.TxPool.Locals]. *)
Fixpoint rangeLocals (locals : list Address) (author : Address) : bool :=
  match locals with
  | [] => false
  | account :: rest => if N.eqb account author then true else rangeLocals rest author
  end.

Definition isLocalBlock (s : Orange) (block : Block) : bool :=
  match Author (engine s) (header block) with
  | inr _ => false
  | inl author =>
      if N.eqb author (ongerbase s) then true
      else rangeLocals (TxPool_Locals s) author
  end.

Definition shouldPreserve (s : Orange) (block : Block) : bool :=
  match engineKind (engine s) with
  | Clique => false
  | _ => isLocalBlock s block
  end.

(** Sample engines and nodes: a proof-of-work engine whose author is the
    coinbase of the header, and a proof-of-authority engine that recovers the
    signer from the extra data and fails when there is none. *)
Definition powEngine : Engine := mkEngine Ongash (fun h => inl (Coinbase h)).
Definition poaEngine : Engine :=
  mkEngine Clique (fun h => match Extra h with
                            | [] => inr errAuthor
                            | signer :: _ => inl signer
                            end).
Definition powNode : Orange := mkOrange powEngine 5%N [6%N; 7%N].
Definition poaNode : Orange := mkOrange poaEngine 5%N [6%N; 7%N].
Definition blockBy (a : Address) : Block := mkBlock (mkHeader 1%N a [a]).

End Backend.

(** ** The fast-sync switch of the protocol handler *)

Module Sync.

(** Modelled from the spec: the handler's [fastSync] flag. The code that
    sets and clears it (the bodies of [newHandler] and [doSync]) is not among
    the sources at hand, only [ong/sync_test.go] is, which reads the flag as a
    [uint32] that is 1 on a pristine chain and 0 on a chain with blocks. The
    spec: starting sync against an empty local chain leaves fast-sync enabled;
    once a full block has been successfully imported from the network it is
    disabled for the life of the process and never re-enabled, even if the
    local chain is later found empty or a sync starts against a fresh peer. *)
Record handler : Type := mkHandler {
  fastSync : Z;      (* the [uint32] flag: 1 enabled, 0 disabled *)
  chainHead : N      (* number of the current full block; 0 on an empty chain *)
}.

(** Modelled from the spec: creating the handler over a local chain. *)
Definition newHandler (head : N) : handler :=
  {| fastSync := if N.eqb head 0 then 1 else 0; chainHead := head |}.

(** Modelled from the spec: what can happen to a handler during the life of
    the process, as far as the flag is concerned. *)
Inductive event : Type :=
| StartSync (peer : string)    (* a sync cycle starts against [peer] *)
| ImportBlock                  (* a full block from the network is imported *)
| ImportFailure                (* an import is attempted and rejected *)
| ChainFoundEmpty.             (* the local chain is rolled back to genesis *)

(** Modelled from the spec: the effect of one event. *)
Definition step (e : event) (h : handler) : handler :=
  match e with
  | StartSync _ => h
  | ImportBlock => {| fastSync := 0; chainHead := N.succ (chainHead h) |}
  | ImportFailure => h
  | ChainFoundEmpty => {| fastSync := fastSync h; chainHead := 0 |}
  end.

Definition steps (es : list event) (h : handler) : handler :=
  fold_left (fun h e => step e h) es h.

End Sync.

(** ** Bookkeeping invariants of the peer set *)

Module PeerSetInv.
Import PeerSet World.

(** Every entry of the table is stored under the id of its peer. *)
Definition keyedById (ps : peerSet) : Prop :=
  forall id p, peers ps !! id = Some p -> ID p = id.

(** The parked callers are the owners of the channels stored in [snapWait];
    these channels were all handed out by [make] and no two ids share one. *)
Definition parkedInv (w : world) : Prop :=
  (forall ch, ch ∈ w_parked w <-> exists id, snapWait (w_set w) !! id = Some ch) /\
  (forall id ch, snapWait (w_set w) !! id = Some ch -> (ch < w_next w)%nat) /\
  (forall id1 id2 ch,
     snapWait (w_set w) !! id1 = Some ch -> snapWait (w_set w) !! id2 = Some ch ->
     id1 = id2).

End PeerSetInv.

(** ** Setting up and running the full node service *)

Module Node.
Import Backend.

(** The cache allowances of the configuration, in megabytes (Go [int]s). *)
Record cacheConfig : Type := mkCacheConfig {
  NoPruning : bool;
  TrieCleanCache : Z;
  TrieDirtyCache : Z;
  SnapshotCache : Z
}.

(** [New]: with pruning disabled the dirty cache allowance is handed over to
    the clean cache and, when snapshots are on, to the snapshot cache. Go's
    [/] on [int] truncates towards zero. *)
Definition reallocateCaches (config : cacheConfig) : cacheConfig :=
  if NoPruning config && (0 <? TrieDirtyCache config) then
    if 0 <? SnapshotCache config then
      {| NoPruning := NoPruning config;
         TrieCleanCache :=
           wrapInt (TrieCleanCache config + wrapInt (TrieDirtyCache config * 3) ÷ 5);
         TrieDirtyCache := 0;
         SnapshotCache :=
           wrapInt (SnapshotCache config + wrapInt (TrieDirtyCache config * 2) ÷ 5) |}
    else
      {| NoPruning := NoPruning config;
         TrieCleanCache := wrapInt (TrieCleanCache config + TrieDirtyCache config);
         TrieDirtyCache := 0;
         SnapshotCache := SnapshotCache config |}
  else config.

(** [Protocols]: the [snap] protocols are announced next to the [ong] ones
    when the snapshot cache allowance is positive. *)
Inductive protocolFamily : Type := OngProtocols | SnapProtocols.

Definition Protocols (SnapshotCache : Z) : list protocolFamily :=
  let protos := [OngProtocols] in
  if 0 <? SnapshotCache then protos ++ [SnapProtocols] else protos.

Inductive nodeError : Type :=
| errDatabaseVersion      (* database version is newer than supported *)
| errInvalidPeerConfig    (* light peer count >= total peer count *)
| errOngerbaseMissing     (* ongerbase must be explicitly specified / ongerbase missing *)
| errSignerMissing.       (* signer missing *)

(** [New]: the check of the stored database version ([nil] when none is
    stored) against [core.BlockChainVersion]; the result is the version the
    database holds afterwards. *)
Definition checkDatabaseVersion (SkipBcVersionCheck : bool) (BlockChainVersion : Z)
    (bcVersion : option Z) : option Z + nodeError :=
  if negb SkipBcVersionCheck then
    match bcVersion with
    | Some v =>
        if BlockChainVersion <? v then inr errDatabaseVersion
        else if v <? BlockChainVersion then inl (Some BlockChainVersion)
        else inl bcVersion
    | None => inl (Some BlockChainVersion)
    end
  else inl bcVersion.

(** [makeExtraData]. [defaultExtra] is the RLP encoding of the client version
    record, [maxSize] is [params.MaximumExtraDataSize]. *)
Definition makeExtraData (defaultExtra : list Byte.byte) (maxSize : Z)
    (extra : list Byte.byte) : list Byte.byte :=
  let extra := if (length extra =? 0)%nat then defaultExtra else extra in
  if maxSize <? Z.of_nat (length extra) then [] else extra.

(** [Miner.SetExtra]: the error, or the extra data handed to the worker. *)
Inductive extraError : Type := errExtraTooLong.

Definition SetExtra (maxSize : Z) (extra : list Byte.byte) : list Byte.byte + extraError :=
  if maxSize <? Z.of_nat (length extra) then inr errExtraTooLong else inl extra.

(** [Orange.Orangerbase]. [wallets] is what [s.AccountManager().Wallets()]
    returns, each wallet given by the addresses of its accounts; the zero
    address stands for "not configured". *)
Definition Orangerbase (wallets : list (list Address)) (s : Orange)
  : Orange * (Address + nodeError) :=
  if negb (N.eqb (ongerbase s) 0) then (s, inl (ongerbase s))
  else
    match wallets with
    | (account :: _) :: _ =>
        ({| engine := engine s; ongerbase := account; TxPool_Locals := TxPool_Locals s |},
         inl account)
    | _ => (s, inr errOngerbaseMissing)
    end.

(** [Orange.Start], as far as the peer limit goes: the limit handed to the
    handler, or the error. *)
Definition Start (LightServ LightPeers MaxPeers : Z) : Z + nodeError :=
  if 0 <? LightServ then
    if MaxPeers <=? LightPeers then inr errInvalidPeerConfig
    else inl (wrapInt (MaxPeers - LightPeers))
  else inl MaxPeers.

(** What [StartMining] asks of its collaborators, in program order. *)
Inductive miningCall : Type :=
| SetThreads (threads : Z)
| SetGasPrice (price : Z)
| Authorize (signer : Address)
| MinerStart (coinbase : Address).

(** The node as [StartMining] sees it: whether the engine has a [SetThreads]
    method, whether the miner is running, the gas price, the flag
    [handler.acceptTxs], the wallets, and the accounts for which
    [accountManager.Find] returns a wallet. *)
Record miningNode : Type := mkMiningNode {
  mn_node : Orange;
  mn_threaded : bool;
  mn_mining : bool;
  mn_gasPrice : Z;
  mn_acceptTxs : Z;
  mn_wallets : list (list Address);
  mn_find : Address -> bool
}.

Definition with_node (s : Orange) (n : miningNode) : miningNode :=
  {| mn_node := s; mn_threaded := mn_threaded n; mn_mining := mn_mining n;
     mn_gasPrice := mn_gasPrice n; mn_acceptTxs := mn_acceptTxs n;
     mn_wallets := mn_wallets n; mn_find := mn_find n |}.

Definition with_acceptTxs (v : Z) (n : miningNode) : miningNode :=
  {| mn_node := mn_node n; mn_threaded := mn_threaded n; mn_mining := mn_mining n;
     mn_gasPrice := mn_gasPrice n; mn_acceptTxs := v;
     mn_wallets := mn_wallets n; mn_find := mn_find n |}.

Record miningResult : Type := mkMiningResult {
  mr_node : miningNode;
  mr_calls : list miningCall;
  mr_err : option nodeError
}.

(** The first step of [StartMining]: the thread count goes to an engine that
    has a [SetThreads] method, zero being turned into -1. *)
Definition threadCalls (threads : Z) (n : miningNode) : list miningCall :=
  if mn_threaded n then [SetThreads (if threads =? 0 then -1 else threads)] else [].

Definition StartMining (threads : Z) (n : miningNode) : miningResult :=
  let calls := threadCalls threads n in
  if negb (mn_mining n) then
    let calls := calls ++ [SetGasPrice (mn_gasPrice n)] in
    match Orangerbase (mn_wallets n) (mn_node n) with
    | (s, inr _) => mkMiningResult (with_node s n) calls (Some errOngerbaseMissing)
    | (s, inl eb) =>
        let n := with_node s n in
        match engineKind (engine s) with
        | Clique =>
            if negb (mn_find n eb) then mkMiningResult n calls (Some errSignerMissing)
            else mkMiningResult (with_acceptTxs 1 n)
                                (calls ++ [Authorize eb; MinerStart eb]) None
        | _ => mkMiningResult (with_acceptTxs 1 n) (calls ++ [MinerStart eb]) None
        end
    end
  else mkMiningResult n calls None.

Definition Synced (n : miningNode) : bool := mn_acceptTxs n =? 1.

(** Sample nodes. *)
Definition defaultCaches : cacheConfig := mkCacheConfig true 154 256 102.
Definition idlePowMiner : miningNode :=
  mkMiningNode (mkOrange powEngine 0%N []) true false 1000000000 0 [[9%N; 8%N]] (fun _ => true).
Definition idlePoaMiner : miningNode :=
  mkMiningNode (mkOrange poaEngine 5%N []) false false 1000000000 0 [] (fun _ => false).

(** A proof-of-work node on which no ongerbase has been configured (the field
    holds the zero address) and no local account is listed. *)
Definition unsetNode : Orange := mkOrange powEngine 0%N [].

End Node.

(** ** The miner's update loop *)

Module Miner.
Import Backend.

(** The downloader events the loop subscribes to. [StartEvent] carries what
    [miner.Mining()] answers when the event is handled. *)
Inductive downloaderEvent : Type :=
| StartEvent (wasMining : bool)
| FailedEvent
| DoneEvent.

(** What one round of the [select] receives: an event (or nil) from the
    subscription channel, an address from [startCh], a token from [stopCh],
    or the closing of [exitCh]. *)
Inductive message : Type :=
| DlEvent (ev : downloaderEvent)
| DlNil
| StartReq (addr : Address)
| StopReq
| Exit.

(** The calls the loop makes on its worker. *)
Inductive workerCall : Type :=
| WorkerStart
| WorkerStop
| WorkerSetOrangerbase (addr : Address)
| WorkerClose.

(** The subscription channel: delivering events, unsubscribed (the next
    receive yields nil), or set to nil by the loop and never selected again. *)
Inductive dlChannel : Type := Listening | Unsubscribed | Detached.

Record loop : Type := mkLoop {
  coinbase : Address;
  shouldStart : bool;
  canStart : bool;
  dlEventCh : dlChannel;
  exited : bool
}.

(** [New] followed by the first lines of [update]. *)
Definition newLoop : loop :=
  {| coinbase := 0%N; shouldStart := false; canStart := true;
     dlEventCh := Listening; exited := false |}.

(** [miner.SetOrangerbase(miner.coinbase); miner.worker.start()]. *)
Definition restart (l : loop) : list workerCall :=
  if shouldStart l then [WorkerSetOrangerbase (coinbase l); WorkerStart] else [].

Definition handleEvent (ev : downloaderEvent) (l : loop) : loop * list workerCall :=
  match ev with
  | StartEvent wasMining =>
      ({| coinbase := coinbase l;
          shouldStart := if wasMining then true else shouldStart l;
          canStart := false; dlEventCh := dlEventCh l; exited := exited l |},
       [WorkerStop])
  | FailedEvent =>
      ({| coinbase := coinbase l; shouldStart := shouldStart l;
          canStart := true; dlEventCh := dlEventCh l; exited := exited l |},
       restart l)
  | DoneEvent =>
      ({| coinbase := coinbase l; shouldStart := shouldStart l;
          canStart := true; dlEventCh := Unsubscribed; exited := exited l |},
       restart l)
  end.

Definition detach (l : loop) : loop :=
  {| coinbase := coinbase l; shouldStart := shouldStart l; canStart := canStart l;
     dlEventCh := Detached; exited := exited l |}.

(** One round of the loop. After the loop has returned nothing is received
    any more; an event is delivered only while the subscription is live; a
    nil from the channel makes the loop drop the channel. *)
Definition step (m : message) (l : loop) : loop * list workerCall :=
  if exited l then (l, [])
  else
    match m with
    | DlEvent ev =>
        match dlEventCh l with
        | Listening => handleEvent ev l
        | _ => (l, [])
        end
    | DlNil =>
        match dlEventCh l with
        | Detached => (l, [])
        | _ => (detach l, [])
        end
    | StartReq addr =>
        ({| coinbase := addr; shouldStart := true; canStart := canStart l;
            dlEventCh := dlEventCh l; exited := exited l |},
         WorkerSetOrangerbase addr :: (if canStart l then [WorkerStart] else []))
    | StopReq =>
        ({| coinbase := coinbase l; shouldStart := false; canStart := canStart l;
            dlEventCh := dlEventCh l; exited := exited l |},
         [WorkerStop])
    | Exit =>
        ({| coinbase := coinbase l; shouldStart := shouldStart l; canStart := canStart l;
            dlEventCh := match dlEventCh l with
                         | Listening => Unsubscribed
                         | ch => ch
                         end;
            exited := true |},
         [WorkerClose])
    end.

Fixpoint steps (ms : list message) (l : loop) : loop * list workerCall :=
  match ms with
  | [] => (l, [])
  | m :: ms =>
      let '(l1, calls1) := step m l in
      let '(l2, calls2) := steps ms l1 in
      (l2, calls1 ++ calls2)
  end.

Definition endsSync (m : message) : bool :=
  match m with
  | DlEvent FailedEvent | DlEvent DoneEvent => true
  | _ => false
  end.

Definition fromDownloader (m : message) : bool :=
  match m with
  | DlEvent _ | DlNil => true
  | _ => false
  end.

(** What the start and stop requests of a message sequence leave behind:
    whether mining is wanted, and on which address. *)
Definition isRequest (m : message) : bool :=
  match m with
  | StartReq _ | StopReq => true
  | _ => false
  end.

Fixpoint wantAfter (ms : list message) (want : bool) (addr : Address) : bool * Address :=
  match ms with
  | [] => (want, addr)
  | StartReq a :: ms => wantAfter ms true a
  | StopReq :: ms => wantAfter ms false addr
  | _ :: ms => wantAfter ms want addr
  end.

(** Two loops that only differ in how far the dropped subscription has been
    noticed. *)
Definition sameControl (l1 l2 : loop) : Prop :=
  coinbase l1 = coinbase l2 /\ shouldStart l1 = shouldStart l2 /\
  canStart l1 = canStart l2 /\ exited l1 = exited l2 /\
  dlEventCh l1 <> Listening /\ dlEventCh l2 <> Listening.

End Miner.

(** ** Sorting hashes (package [snapshot]) *)

Module SnapshotSort.

(** [bytes.Compare]: lexicographic order on byte strings. *)
Fixpoint bytesCompare (a b : list Byte.byte) : comparison :=
  match a, b with
  | [], [] => Eq
  | [], _ :: _ => Lt
  | _ :: _, [] => Gt
  | x :: a, y :: b =>
      match N.compare (Byte.to_N x) (Byte.to_N y) with
      | Eq => bytesCompare a b
      | c => c
      end
  end.

(** A [common.Hash] as its bytes; [hashes] is a slice of them. Indexing a
    slice out of range panics: the operations then have no result. *)
Definition hashes : Type := list (list Byte.byte).

Definition index (hs : hashes) (i : Z) : option (list Byte.byte) :=
  if i <? 0 then None else hs !! Z.to_nat i.

Definition Len (hs : hashes) : Z := Z.of_nat (length hs).

Definition Less (hs : hashes) (i j : Z) : option bool :=
  match index hs i, index hs j with
  | Some a, Some b =>
      Some (match bytesCompare a b with Lt => true | _ => false end)
  | _, _ => None
  end.

Definition Swap (hs : hashes) (i j : Z) : option hashes :=
  match index hs i, index hs j with
  | Some a, Some b => Some (<[Z.to_nat j := a]> (<[Z.to_nat i := b]> hs))
  | _, _ => None
  end.

Definition sampleHashes : hashes :=
  [[Byte.x02; Byte.x00]; [Byte.x01; Byte.xff]; [Byte.x01; Byte.x00]].

End SnapshotSort.

(** ** The key-value notary (package [trie]) *)

Module Notary.

(** The wrapped reader, as a finite map from keys to values ([Get] on a
    missing key returns an error), and the set of keys read so far. *)
Record KeyValueNotary : Type := mkNotary {
  KeyValueReader : gmap string (list Byte.byte);
  reads : gset string
}.

Definition NewKeyValueNotary (db : gmap string (list Byte.byte)) : KeyValueNotary :=
  {| KeyValueReader := db; reads := ∅ |}.

(** [Get] records the key and passes the request on; [None] is the error of
    the wrapped reader. *)
Definition Get (key : string) (k : KeyValueNotary)
  : KeyValueNotary * option (list Byte.byte) :=
  ({| KeyValueReader := KeyValueReader k; reads := {[key]} ∪ reads k |},
   KeyValueReader k !! key).

(** [Accessed]: a fresh store is filled from the recorded keys, in the order
    the [range] over [k.reads] takes. The error of the wrapped [Get] is
    dropped, its nil value is stored as the empty value. *)
Definition Accessed (order : list string) (k : KeyValueNotary)
  : gmap string (list Byte.byte) :=
  fold_left (fun db key => <[key := default [] (KeyValueReader k !! key)]> db) order ∅.

Definition readsOrder (k : KeyValueNotary) (order : list string) : Prop :=
  order ≡ₚ elements (reads k).

Fixpoint gets (keys : list string) (k : KeyValueNotary) : KeyValueNotary :=
  match keys with
  | [] => k
  | key :: keys => gets keys (Get key k).1
  end.

Definition sampleDb : gmap string (list Byte.byte) :=
  {[ "a" := [Byte.x01]; "b" := [Byte.x02] ]}.

End Notary.

(** * Properties *)

(** ** Machine integers *)

Lemma wrapInt_small z : minInt <= z <= maxInt -> wrapInt z = z.
Proof.
  unfold wrapInt, minInt, maxInt. intros Hz.
  rewrite Z.mod_small; lia.
Qed.

Lemma wrapInt_range z : minInt <= wrapInt z <= maxInt.
Proof.
  unfold wrapInt, minInt, maxInt.
  pose proof (Z.mod_pos_bound (z + 2 ^ 63) (2 ^ 64)). lia.
Qed.

(** ** The peer table and its counter *)

Module PeerSetFacts.
Import PeerSet.

Lemma snapCount_le_size (m : gmap string ongPeer) : (snapCount m <= size m)%nat.
Proof. unfold snapCount. apply map_size_filter. Qed.

Lemma snapCount_empty : snapCount ∅ = 0%nat.
Proof. unfold snapCount. by rewrite map_filter_empty, map_size_empty. Qed.

Lemma snapCount_insert_ext (m : gmap string ongPeer) id p :
  m !! id = None -> is_Some (snapExt p) ->
  snapCount (<[id := p]> m) = S (snapCount m).
Proof.
  intros Hfresh Hext. unfold snapCount.
  rewrite map_filter_insert_True by exact Hext.
  apply map_size_insert_None.
  apply map_lookup_filter_None. left. exact Hfresh.
Qed.

Lemma snapCount_insert_plain (m : gmap string ongPeer) id p :
  m !! id = None -> snapExt p = None ->
  snapCount (<[id := p]> m) = snapCount m.
Proof.
  intros Hfresh Hext. unfold snapCount.
  rewrite map_filter_insert_not'; [done | |].
  - unfold hasSnapExt. cbn. rewrite Hext. by intros [? ?].
  - intros y Hy. congruence.
Qed.

Lemma snapCount_delete_ext (m : gmap string ongPeer) id p :
  m !! id = Some p -> is_Some (snapExt p) ->
  S (snapCount (delete id m)) = snapCount m.
Proof.
  intros Hin Hext. unfold snapCount.
  rewrite map_filter_delete.
  rewrite map_size_delete_Some.
  - assert (Hpos : size (filter hasSnapExt m) <> 0%nat).
    { intros Hz. apply map_size_empty_inv in Hz.
      assert (Hl : filter hasSnapExt m !! id = Some p)
        by (apply map_lookup_filter_Some; split; [exact Hin | exact Hext]).
      rewrite Hz, lookup_empty in Hl. discriminate. }
    lia.
  - exists p. apply map_lookup_filter_Some. split; [exact Hin | exact Hext].
Qed.

Lemma snapCount_delete_plain (m : gmap string ongPeer) id p :
  m !! id = Some p -> snapExt p = None ->
  snapCount (delete id m) = snapCount m.
Proof.
  intros Hin Hext. unfold snapCount.
  rewrite map_filter_delete_not; [done |].
  intros y Hy. assert (y = p) by congruence. subst y.
  unfold hasSnapExt. cbn. rewrite Hext. by intros [? ?].
Qed.

Lemma size_bound_maxInt (m : gmap string ongPeer) :
  Z.of_nat (size m) < maxInt -> minInt <= Z.of_nat (snapCount m) + 1 <= maxInt.
Proof.
  intros Hb. pose proof (snapCount_le_size m). unfold minInt, maxInt in *. lia.
Qed.

(** *** Iteration over the table *)

Lemma rangeOrder_elem (m : gmap string ongPeer) order id p :
  rangeOrder m order -> ((id, p) ∈ order <-> m !! id = Some p).
Proof.
  unfold rangeOrder. intros Hperm. rewrite Hperm.
  apply elem_of_map_to_list.
Qed.

Lemma rangeOrder_values (m : gmap string ongPeer) order p :
  rangeOrder m order -> (p ∈ order.*2 <-> exists id, m !! id = Some p).
Proof.
  intros Hord. rewrite list_elem_of_fmap. split.
  - intros [[id q] [-> Hin]]. exists id. by apply (rangeOrder_elem m order).
  - intros [id Hin]. exists (id, p). split; [done |].
    by apply (rangeOrder_elem m order).
Qed.

Lemma rangeOrder_map_to_list (m : gmap string ongPeer) : rangeOrder m (map_to_list m).
Proof. unfold rangeOrder. reflexivity. Qed.

(** The append loop of the selection queries is a filter. *)
Lemma select_loop_filter (known : ongPeer -> bool) (l acc : list ongPeer) :
  fold_left (fun list p => if negb (known p) then list ++ [p] else list) l acc
  = acc ++ filter (fun p => known p = false) l.
Proof.
  revert acc. induction l as [|p l IH]; intros acc; cbn [fold_left].
  - by rewrite filter_nil, app_nil_r.
  - rewrite IH. destruct (known p) eqn:Hk; cbn [negb].
    + rewrite filter_cons_False by congruence. done.
    + rewrite filter_cons_True by done. by rewrite <- app_assoc.
Qed.

Lemma peersWithoutBlock_filter order hash :
  peersWithoutBlock order hash
  = filter (fun p => KnownBlock p hash = false) (order.*2).
Proof. unfold peersWithoutBlock. by rewrite select_loop_filter. Qed.

Lemma peersWithoutTransaction_filter order hash :
  peersWithoutTransaction order hash
  = filter (fun p => KnownTransaction p hash = false) (order.*2).
Proof. unfold peersWithoutTransaction. by rewrite select_loop_filter. Qed.

Lemma KnownBlock_false p hash :
  KnownBlock p hash = false <-> hash ∉ op_knownBlocks (Peer p).
Proof. unfold KnownBlock. apply bool_decide_eq_false. Qed.

Lemma KnownTransaction_false p hash :
  KnownTransaction p hash = false <-> hash ∉ op_knownTxs (Peer p).
Proof. unfold KnownTransaction. apply bool_decide_eq_false. Qed.

(** *** [registerPeer] *)

Lemma registerPeer_closed peer ext ps :
  closed ps = true -> registerPeer peer ext ps = (ps, Some errPeerSetClosed).
Proof. intros Hc. unfold registerPeer. by rewrite Hc. Qed.

Lemma registerPeer_known peer ext ps :
  closed ps = false -> is_Some (peers ps !! op_id peer) ->
  registerPeer peer ext ps = (ps, Some errPeerAlreadyRegistered).
Proof. intros Hc [q Hq]. unfold registerPeer. by rewrite Hc, Hq. Qed.

Lemma registerPeer_fresh peer ext ps :
  closed ps = false -> peers ps !! op_id peer = None ->
  (registerPeer peer ext ps).2 = None /\
  peers (registerPeer peer ext ps).1
  = <[op_id peer := mkOngPeer peer (mkSnapPeer <$> ext)]> (peers ps).
Proof.
  intros Hc Hn. unfold registerPeer. rewrite Hc, Hn. by destruct ext.
Qed.

(** C3. [registerPeer] fails with [errPeerSetClosed] whenever the set has been
    closed and, on a set that is open, with [errPeerAlreadyRegistered]
    whenever the id is already registered; a failure leaves the whole set,
    hence the peer table, unchanged. On success the new entry is in the table
    at once, is visited by every iteration over the table, and is returned by
    the selection queries whose criterion it meets. *)
Theorem registerPeer_spec peer ext ps :
  (closed ps = true -> registerPeer peer ext ps = (ps, Some errPeerSetClosed)) /\
  (closed ps = false -> is_Some (peers ps !! op_id peer) ->
     registerPeer peer ext ps = (ps, Some errPeerAlreadyRegistered)) /\
  (closed ps = false -> peers ps !! op_id peer = None ->
     let ps' := (registerPeer peer ext ps).1 in
     let ong := mkOngPeer peer (mkSnapPeer <$> ext) in
     (registerPeer peer ext ps).2 = None /\
     peers ps' = <[op_id peer := ong]> (peers ps) /\
     PeerSet.peer (op_id peer) ps' = Some ong /\
     forall order, rangeOrder (peers ps') order ->
       ong ∈ order.*2 /\
       (forall hash, hash ∉ op_knownBlocks peer ->
          ong ∈ peersWithoutBlock order hash) /\
       (forall hash, hash ∉ op_knownTxs peer ->
          ong ∈ peersWithoutTransaction order hash)).
Proof.
  split; [apply registerPeer_closed |].
  split; [apply registerPeer_known |].
  intros Hc Hn ps' ong.
  destruct (registerPeer_fresh peer ext ps Hc Hn) as [Herr Htab].
  fold ps' in Htab. fold ong in Htab.
  assert (Hlook : peers ps' !! op_id peer = Some ong).
  { rewrite Htab. apply lookup_insert_eq. }
  split; [exact Herr |]. split; [exact Htab |]. split; [exact Hlook |].
  intros order Hord.
  assert (Hvis : ong ∈ order.*2).
  { apply (rangeOrder_values (peers ps')); [done | by exists (op_id peer)]. }
  split; [exact Hvis |]. split; intros hash Hunknown.
  - rewrite peersWithoutBlock_filter. apply list_elem_of_filter.
    split; [by apply KnownBlock_false | exact Hvis].
  - rewrite peersWithoutTransaction_filter. apply list_elem_of_filter.
    split; [by apply KnownTransaction_false | exact Hvis].
Qed.

Lemma registerPeer_spec_witness :
  registerPeer peerA None (close newPeerSet) = (close newPeerSet, Some errPeerSetClosed) /\
  registerPeer peerA (Some snapA) (registerPeer peerA None newPeerSet).1
  = ((registerPeer peerA None newPeerSet).1, Some errPeerAlreadyRegistered) /\
  (registerPeer peerB None newPeerSet).2 = None.
Proof.
  split; [| split].
  - apply (registerPeer_spec peerA None (close newPeerSet)). reflexivity.
  - apply (registerPeer_spec peerA (Some snapA) (registerPeer peerA None newPeerSet).1).
    + reflexivity.
    + vm_compute. eexists. reflexivity.
  - apply (registerPeer_spec peerB None newPeerSet); reflexivity.
Defined.

(** The order of the guards: on a closed set that already holds the id, the
    closed flag is tested first and the error is [errPeerSetClosed]. *)
Lemma closed_set_masks_known_id :
  closed closedWithA = true /\
  is_Some (peers closedWithA !! op_id peerA) /\
  registerPeer peerA None closedWithA = (closedWithA, Some errPeerSetClosed) /\
  (registerPeer peerA None closedWithA).2 <> Some errPeerAlreadyRegistered.
Proof.
  split; [reflexivity |].
  split; [vm_compute; eexists; reflexivity |].
  split; [reflexivity | discriminate].
Qed.

(** *** [unregisterPeer] *)

Lemma unregisterPeer_unknown id ps :
  peers ps !! id = None -> unregisterPeer id ps = (ps, Some errPeerNotRegistered).
Proof. intros Hn. unfold unregisterPeer. by rewrite Hn. Qed.

Lemma unregisterPeer_known id ps p :
  peers ps !! id = Some p ->
  (unregisterPeer id ps).2 = None /\
  peers (unregisterPeer id ps).1 = delete id (peers ps) /\
  snapPeers (unregisterPeer id ps).1
  = match snapExt p with
    | Some _ => wrapInt (snapPeers ps - 1)
    | None => snapPeers ps
    end /\
  snapWait (unregisterPeer id ps).1 = snapWait ps /\
  snapPend (unregisterPeer id ps).1 = snapPend ps /\
  closed (unregisterPeer id ps).1 = closed ps.
Proof.
  intros Hs. unfold unregisterPeer. rewrite Hs. by destruct (snapExt p).
Qed.

Lemma snapInv_count_pos ps id p :
  snapInv ps -> peers ps !! id = Some p -> is_Some (snapExt p) ->
  1 <= snapPeers ps.
Proof.
  intros Hinv Hin Hext. rewrite Hinv.
  pose proof (snapCount_delete_ext (peers ps) id p Hin Hext). lia.
Qed.

(** C4. [unregisterPeer] fails with [errPeerNotRegistered] exactly when the
    id is not in the table, and then leaves the set unchanged. Otherwise it
    succeeds, deletes the entry and, in the same call, decrements the [snap]
    counter exactly when the deleted entry carried an extension; nothing else
    changes. Removal is idempotent: a second call for the same id reports
    [errPeerNotRegistered] and leaves the set as the first call left it. *)
Theorem unregisterPeer_outcome id ps :
  ((unregisterPeer id ps).2 = Some errPeerNotRegistered <-> peers ps !! id = None) /\
  (peers ps !! id = None -> unregisterPeer id ps = (ps, Some errPeerNotRegistered)) /\
  (forall p, peers ps !! id = Some p ->
     let ps' := (unregisterPeer id ps).1 in
     (unregisterPeer id ps).2 = None /\
     peers ps' = delete id (peers ps) /\
     PeerSet.peer id ps' = None /\
     snapPeers ps' = match snapExt p with
                     | Some _ => wrapInt (snapPeers ps - 1)
                     | None => snapPeers ps
                     end /\
     (snapInv ps -> len ps <= maxInt ->
        snapLen ps' = match snapExt p with
                      | Some _ => snapLen ps - 1
                      | None => snapLen ps
                      end) /\
     snapWait ps' = snapWait ps /\ snapPend ps' = snapPend ps /\
     closed ps' = closed ps /\
     unregisterPeer id ps' = (ps', Some errPeerNotRegistered)).
Proof.
  split; [| split].
  - split.
    + intros Herr. destruct (peers ps !! id) as [p|] eqn:Hs; [| done].
      destruct (unregisterPeer_known id ps p Hs) as [Hok _]. congruence.
    + intros Hn. by rewrite unregisterPeer_unknown.
  - apply unregisterPeer_unknown.
  - intros p Hs ps'.
    destruct (unregisterPeer_known id ps p Hs)
      as (Hok & Htab & Hcnt & Hwait & Hpend & Hclosed).
    fold ps' in Htab, Hcnt, Hwait, Hpend, Hclosed.
    assert (Hgone : peers ps' !! id = None).
    { rewrite Htab. apply lookup_delete_eq. }
    split; [exact Hok |]. split; [exact Htab |]. split; [exact Hgone |].
    split; [exact Hcnt |]. split.
    { intros Hinv Hlen. unfold snapLen. rewrite Hcnt.
      destruct (snapExt p) as [e|] eqn:He; [| done].
      apply wrapInt_small.
      assert (1 <= snapPeers ps)
        by (apply (snapInv_count_pos ps id p); [done | done | by rewrite He]).
      pose proof (snapCount_le_size (peers ps)).
      unfold snapInv in Hinv. unfold len in Hlen. unfold minInt, maxInt in *. lia. }
    split; [exact Hwait |]. split; [exact Hpend |]. split; [exact Hclosed |].
    by apply unregisterPeer_unknown.
Qed.

Lemma unregisterPeer_outcome_witness :
  unregisterPeer "a" newPeerSet = (newPeerSet, Some errPeerNotRegistered) /\
  (unregisterPeer "a" (registerPeer peerA (Some snapA) newPeerSet).1).2 = None /\
  snapLen (unregisterPeer "a" (registerPeer peerA (Some snapA) newPeerSet).1).1 = 0.
Proof.
  split; [| split].
  - apply (unregisterPeer_outcome "a" newPeerSet). reflexivity.
  - destruct (unregisterPeer_outcome "a" (registerPeer peerA (Some snapA) newPeerSet).1)
      as (_ & _ & Hok).
    apply (Hok (mkOngPeer peerA (Some (mkSnapPeer snapA)))). reflexivity.
  - destruct (unregisterPeer_outcome "a" (registerPeer peerA (Some snapA) newPeerSet).1)
      as (_ & _ & Hok).
    destruct (Hok (mkOngPeer peerA (Some (mkSnapPeer snapA))) eq_refl)
      as (_ & _ & _ & _ & Hlen & _).
    rewrite Hlen; [reflexivity | | ].
    + unfold snapInv. vm_compute. reflexivity.
    + vm_compute. discriminate.
Defined.

(** *** The counter invariant, operation by operation *)

Lemma snapInv_newPeerSet : snapInv newPeerSet.
Proof. unfold snapInv. cbn. by rewrite snapCount_empty. Qed.

Lemma snapInv_registerPeer peer ext ps :
  snapInv ps -> len ps < maxInt -> snapInv (registerPeer peer ext ps).1.
Proof.
  intros Hinv Hlen. unfold registerPeer.
  destruct (closed ps); [done |].
  destruct (peers ps !! op_id peer) as [q|] eqn:Hq; [done |].
  unfold snapInv in *. destruct ext as [e|]; cbn.
  - rewrite snapCount_insert_ext; [| done | by eexists].
    rewrite Hinv, wrapInt_small; [lia |].
    pose proof (size_bound_maxInt (peers ps) Hlen). lia.
  - by rewrite snapCount_insert_plain.
Qed.

Lemma snapInv_unregisterPeer id ps :
  snapInv ps -> len ps < maxInt -> snapInv (unregisterPeer id ps).1.
Proof.
  intros Hinv Hlen. unfold unregisterPeer.
  destruct (peers ps !! id) as [p|] eqn:Hp; [| done].
  destruct (snapExt p) as [e|] eqn:He; unfold snapInv in *; cbn.
  - assert (Hext : is_Some (snapExt p)) by (by rewrite He).
    pose proof (snapCount_delete_ext (peers ps) id p Hp Hext) as Hdel.
    pose proof (size_bound_maxInt (peers ps) Hlen) as Hb.
    rewrite Hinv, wrapInt_small; unfold minInt, maxInt in *; lia.
  - by rewrite (snapCount_delete_plain (peers ps) id p).
Qed.

Lemma registerSnapExtension_table peer ps :
  peers (se_set (registerSnapExtension peer ps)) = peers ps /\
  snapPeers (se_set (registerSnapExtension peer ps)) = snapPeers ps /\
  closed (se_set (registerSnapExtension peer ps)) = closed ps.
Proof.
  unfold registerSnapExtension.
  destruct (negb (sp_runningOng peer)); [done |].
  destruct (peers ps !! sp_id peer); [done |].
  destruct (snapPend ps !! sp_id peer); [done |].
  by destruct (snapWait ps !! sp_id peer).
Qed.

Lemma waitSnapExtension_table peer wait ps :
  peers (waitSnapExtension peer wait ps).1 = peers ps /\
  snapPeers (waitSnapExtension peer wait ps).1 = snapPeers ps /\
  closed (waitSnapExtension peer wait ps).1 = closed ps.
Proof.
  unfold waitSnapExtension.
  destruct (negb (op_runningSnap peer)); [done |].
  destruct (peers ps !! op_id peer); [done |].
  destruct (snapWait ps !! op_id peer); [done |].
  by destruct (snapPend ps !! op_id peer).
Qed.

Lemma snapInv_registerSnapExtension peer ps :
  snapInv ps -> snapInv (se_set (registerSnapExtension peer ps)).
Proof.
  destruct (registerSnapExtension_table peer ps) as (Ht & Hc & _).
  unfold snapInv. by rewrite Ht, Hc.
Qed.

Lemma snapInv_waitSnapExtension peer wait ps :
  snapInv ps -> snapInv (waitSnapExtension peer wait ps).1.
Proof.
  destruct (waitSnapExtension_table peer wait ps) as (Ht & Hc & _).
  unfold snapInv. by rewrite Ht, Hc.
Qed.

Lemma snapInv_close ps : snapInv ps -> snapInv (close ps).
Proof. done. Qed.

Lemma snapInv_snapLen_le ps : snapInv ps -> 0 <= snapLen ps <= len ps.
Proof.
  unfold snapInv, snapLen, len. intros ->.
  pose proof (snapCount_le_size (peers ps)). lia.
Qed.

(** *** Selection queries *)

Lemma rangeOrder_values_perm (m : gmap string ongPeer) order :
  rangeOrder m order -> order.*2 ≡ₚ (map_to_list m).*2.
Proof. unfold rangeOrder. intros ->. reflexivity. Qed.

(** C6. The selection queries return exactly the registered peers whose set
    of known block hashes (respectively transaction hashes) lacks the hash:
    membership in the result is registration plus not knowing the hash, and
    the result holds one element per table entry that qualifies, whatever
    order the iteration takes. *)
Theorem selection_queries_exact ps order hash :
  rangeOrder (peers ps) order ->
  (forall p, p ∈ peersWithoutBlock order hash <->
             (exists id, peers ps !! id = Some p) /\ hash ∉ op_knownBlocks (Peer p)) /\
  (forall p, p ∈ peersWithoutTransaction order hash <->
             (exists id, peers ps !! id = Some p) /\ hash ∉ op_knownTxs (Peer p)) /\
  peersWithoutBlock order hash
    ≡ₚ filter (fun p => hash ∉ op_knownBlocks (Peer p)) (map_to_list (peers ps)).*2 /\
  peersWithoutTransaction order hash
    ≡ₚ filter (fun p => hash ∉ op_knownTxs (Peer p)) (map_to_list (peers ps)).*2.
Proof.
  intros Hord.
  rewrite peersWithoutBlock_filter, peersWithoutTransaction_filter.
  split; [| split; [| split]].
  - intros p. rewrite list_elem_of_filter, KnownBlock_false.
    rewrite (rangeOrder_values (peers ps) order p Hord). tauto.
  - intros p. rewrite list_elem_of_filter, KnownTransaction_false.
    rewrite (rangeOrder_values (peers ps) order p Hord). tauto.
  - rewrite (rangeOrder_values_perm _ _ Hord).
    erewrite list_filter_iff; [reflexivity |].
    intros p. apply KnownBlock_false.
  - rewrite (rangeOrder_values_perm _ _ Hord).
    erewrite list_filter_iff; [reflexivity |].
    intros p. apply KnownTransaction_false.
Qed.

Lemma selection_queries_exact_witness :
  mkOngPeer peerB None
    ∈ peersWithoutBlock (map_to_list (peers (registerPeer peerB None newPeerSet).1)) 7%N.
Proof.
  apply (selection_queries_exact (registerPeer peerB None newPeerSet).1
           (map_to_list (peers (registerPeer peerB None newPeerSet).1)) 7%N).
  - unfold rangeOrder. reflexivity.
  - split; [exists "b"; reflexivity | vm_compute; discriminate].
Defined.

(** *** The best peer *)

Lemma highestStep_loop (l : list ongPeer) :
  match fold_left highestStep l None with
  | None => l = []
  | Some (bestPeer, bestTd) =>
      exists i p, isFirstHighest l i p /\ bestPeer = Peer p /\ bestTd = op_td (Peer p)
  end.
Proof.
  induction l as [|x l IH] using rev_ind; [done |].
  rewrite fold_left_app. cbn [fold_left].
  destruct (fold_left highestStep l None) as [[bestPeer bestTd]|]; cbn.
  - destruct IH as (i & p & (Hi & Hmax & Hfirst) & -> & ->).
    assert (Hlt : (i < length l)%nat) by (by eapply lookup_lt_Some).
    destruct (op_td (Peer x) ?= op_td (Peer p)) eqn:Hcmp.
    + apply Z.compare_eq_iff in Hcmp.
      exists i, p. split; [| done]. split; [| split].
      * by rewrite lookup_app_l.
      * intros j q Hj. apply lookup_app_Some in Hj as [Hj | [_ Hj]]; [by eapply Hmax |].
        apply list_lookup_singleton_Some in Hj as [_ <-]. lia.
      * intros j q Hji Hj. rewrite lookup_app_l in Hj by lia. by eapply Hfirst.
    + change (op_td (Peer x) < op_td (Peer p)) in Hcmp.
      exists i, p. split; [| done]. split; [| split].
      * by rewrite lookup_app_l.
      * intros j q Hj. apply lookup_app_Some in Hj as [Hj | [_ Hj]]; [by eapply Hmax |].
        apply list_lookup_singleton_Some in Hj as [_ <-]. lia.
      * intros j q Hji Hj. rewrite lookup_app_l in Hj by lia. by eapply Hfirst.
    + apply Z.compare_gt_iff in Hcmp.
      exists (length l), x. split; [| done]. split; [| split].
      * rewrite lookup_app_r by lia. by rewrite Nat.sub_diag.
      * intros j q Hj. apply lookup_app_Some in Hj as [Hj | [_ Hj]].
        -- specialize (Hmax j q Hj). lia.
        -- apply list_lookup_singleton_Some in Hj as [_ <-]. lia.
      * intros j q Hjl Hj. rewrite lookup_app_l in Hj by lia.
        specialize (Hmax j q Hj). lia.
  - subst l. exists 0%nat, x. split; [| done]. split; [done | split].
    + intros j q Hj. apply list_lookup_singleton_Some in Hj as [_ <-]. lia.
    + intros j q Hj. lia.
Qed.

(** C5. Over any iteration order of the table, [peerWithHighestTD] returns
    nothing when the table is empty; otherwise it returns a registered peer
    whose total difficulty is not below that of any registered peer, and that
    peer is the first of the iteration with this total difficulty: every peer
    visited before it has a strictly lower one. *)
Theorem peerWithHighestTD_spec ps order :
  rangeOrder (peers ps) order ->
  (peers ps = ∅ -> peerWithHighestTD order = None) /\
  (peers ps <> ∅ ->
     exists i id p,
       order !! i = Some (id, p) /\ peers ps !! id = Some p /\
       peerWithHighestTD order = Some (Peer p) /\
       (forall id' q, peers ps !! id' = Some q -> op_td (Peer q) <= op_td (Peer p)) /\
       (forall j id' q, (j < i)%nat -> order !! j = Some (id', q) ->
                        op_td (Peer q) < op_td (Peer p))).
Proof.
  intros Hord. split.
  - intros Hempty. unfold rangeOrder in Hord.
    rewrite Hempty, map_to_list_empty in Hord.
    apply Permutation_nil_r in Hord. by subst order.
  - intros Hne. unfold peerWithHighestTD.
    pose proof (highestStep_loop (order.*2)) as Hloop.
    destruct (fold_left highestStep (order.*2) None) as [[bestPeer bestTd]|].
    + destruct Hloop as (i & p & (Hi & Hmax & Hfirst) & -> & _).
      apply list_lookup_fmap_Some in Hi as ([id p'] & Hp & Hi). cbn in Hp. subst p.
      exists i, id, p'. split; [exact Hi |]. split; [| split; [done | split]].
      * apply (rangeOrder_elem (peers ps) order); [done |].
        by eapply list_elem_of_lookup_2.
      * intros id' q Hq.
        apply (rangeOrder_elem (peers ps) order id' q Hord) in Hq.
        apply list_elem_of_lookup_1 in Hq as [j Hj].
        apply (Hmax j q). rewrite list_lookup_fmap, Hj. done.
      * intros j id' q Hji Hj. apply (Hfirst j q Hji).
        rewrite list_lookup_fmap, Hj. done.
    + apply fmap_nil_inv in Hloop. subst order.
      unfold rangeOrder in Hord. symmetry in Hord.
      apply Permutation_nil_r, map_to_list_empty_iff in Hord. done.
Qed.

Lemma peerWithHighestTD_spec_witness :
  peerWithHighestTD (map_to_list (peers newPeerSet)) = None /\
  exists i id p,
    map_to_list (peers threePeers) !! i = Some (id, p) /\
    peers threePeers !! id = Some p /\
    peerWithHighestTD (map_to_list (peers threePeers)) = Some (Peer p).
Proof.
  split.
  - apply (peerWithHighestTD_spec newPeerSet (map_to_list (peers newPeerSet))).
    + unfold rangeOrder. reflexivity.
    + reflexivity.
  - destruct (peerWithHighestTD_spec threePeers (map_to_list (peers threePeers)))
      as [_ Hbest].
    + unfold rangeOrder. reflexivity.
    + destruct Hbest as (i & id & p & Hi & Hid & Hres & _).
      * intros Hempty.
        assert (Ha : peers threePeers !! "a" = None)
          by (rewrite Hempty; apply lookup_empty).
        vm_compute in Ha. discriminate.
      * exists i, id, p. auto.
Defined.

Example peerWithHighestTD_tie_a_first :
  peerWithHighestTD [("a", mkOngPeer peerA None); ("b", mkOngPeer peerB None);
                     ("c", mkOngPeer peerC None)] = Some peerA.
Proof. reflexivity. Qed.

Example peerWithHighestTD_tie_b_first :
  peerWithHighestTD [("c", mkOngPeer peerC None); ("b", mkOngPeer peerB None);
                     ("a", mkOngPeer peerA None)] = Some peerB.
Proof. reflexivity. Qed.

(** *** [waitSnapExtension] and [registerSnapExtension], one call at a time *)

Lemma waitSnapExtension_no_cap peer wait ps :
  op_runningSnap peer = false ->
  waitSnapExtension peer wait ps = (ps, WaitReturn None None).
Proof. intros Hcap. unfold waitSnapExtension. by rewrite Hcap. Qed.

Lemma waitSnapExtension_pending peer wait ps snap :
  op_runningSnap peer = true ->
  peers ps !! op_id peer = None ->
  snapWait ps !! op_id peer = None ->
  snapPend ps !! op_id peer = Some snap ->
  waitSnapExtension peer wait ps
  = (set_snapPend (delete (op_id peer)) ps, WaitReturn (Some snap) None).
Proof.
  intros Hcap Hp Hw Hs. unfold waitSnapExtension. by rewrite Hcap, Hp, Hw, Hs.
Qed.

Lemma waitSnapExtension_parks peer wait ps :
  op_runningSnap peer = true ->
  peers ps !! op_id peer = None ->
  snapWait ps !! op_id peer = None ->
  snapPend ps !! op_id peer = None ->
  waitSnapExtension peer wait ps
  = (set_snapWait <[op_id peer := wait]> ps, WaitRecv wait).
Proof.
  intros Hcap Hp Hw Hs. unfold waitSnapExtension. by rewrite Hcap, Hp, Hw, Hs.
Qed.

Lemma registerSnapExtension_handoff peer ps wait :
  sp_runningOng peer = true ->
  peers ps !! sp_id peer = None ->
  snapPend ps !! sp_id peer = None ->
  snapWait ps !! sp_id peer = Some wait ->
  registerSnapExtension peer ps
  = mkSnapExtResult (set_snapWait (delete (sp_id peer)) ps) None (Some (wait, peer)).
Proof.
  intros Hcap Hp Hs Hw. unfold registerSnapExtension. by rewrite Hcap, Hp, Hs, Hw.
Qed.

Lemma registerSnapExtension_track peer ps :
  sp_runningOng peer = true ->
  peers ps !! sp_id peer = None ->
  snapPend ps !! sp_id peer = None ->
  snapWait ps !! sp_id peer = None ->
  registerSnapExtension peer ps
  = mkSnapExtResult (set_snapPend <[sp_id peer := peer]> ps) None None.
Proof.
  intros Hcap Hp Hs Hw. unfold registerSnapExtension. by rewrite Hcap, Hp, Hs, Hw.
Qed.

(** C7, as amended. A peer that does not advertise the [snap] capability gets
    the nil extension and no error at once, the set untouched. A peer that
    advertises it, whose id is neither registered nor already waiting, and
    whose extension is pending, gets that extension at once, with no error;
    the extension leaves the pending set. *)
Theorem waitSnapExtension_immediate peer wait ps :
  (op_runningSnap peer = false ->
     waitSnapExtension peer wait ps = (ps, WaitReturn None None)) /\
  (forall snap,
     op_runningSnap peer = true ->
     peers ps !! op_id peer = None ->
     snapWait ps !! op_id peer = None ->
     snapPend ps !! op_id peer = Some snap ->
     waitSnapExtension peer wait ps
     = (set_snapPend (delete (op_id peer)) ps, WaitReturn (Some snap) None)).
Proof.
  split; [apply waitSnapExtension_no_cap |].
  intros snap. apply waitSnapExtension_pending.
Qed.

Lemma waitSnapExtension_immediate_witness :
  waitSnapExtension peerB 0%nat newPeerSet = (newPeerSet, WaitReturn None None) /\
  (waitSnapExtension peerA 0%nat (se_set (registerSnapExtension snapA newPeerSet))).2
  = WaitReturn (Some snapA) None.
Proof.
  split.
  - apply (waitSnapExtension_immediate peerB 0%nat newPeerSet). reflexivity.
  - destruct (waitSnapExtension_immediate peerA 0%nat
                (se_set (registerSnapExtension snapA newPeerSet))) as [_ Hpend].
    rewrite (Hpend snapA); reflexivity.
Defined.

(** C7, as stated, fails when the id is already registered: the extension of
    [a] is pending, [a] advertises [snap], and the call returns
    [errPeerAlreadyRegistered] instead of the pending extension. *)
Lemma pending_extension_refused_when_registered :
  op_runningSnap peerA = true /\
  snapPend pendingAndRegisteredA !! op_id peerA = Some snapA /\
  waitSnapExtension peerA 0%nat pendingAndRegisteredA
  = (pendingAndRegisteredA, WaitReturn None (Some errPeerAlreadyRegistered)).
Proof. split; [reflexivity |]. split; reflexivity. Qed.

(** C10, as amended. After [close], [registerSnapExtension] still returns nil
    for every [snap] peer that advertises [ong] and whose id is neither
    registered nor pending: the closed flag is not consulted. The peer is
    recorded in the pending set when no [ong] peer waits for that id;
    otherwise it is sent to the waiter, whose entry is removed, and the
    pending set stays as it was. *)
Theorem registerSnapExtension_after_close peer ps :
  sp_runningOng peer = true ->
  peers ps !! sp_id peer = None ->
  snapPend ps !! sp_id peer = None ->
  se_err (registerSnapExtension peer (close ps)) = None /\
  closed (se_set (registerSnapExtension peer (close ps))) = true /\
  (snapWait ps !! sp_id peer = None ->
     se_set (registerSnapExtension peer (close ps))
     = set_snapPend <[sp_id peer := peer]> (close ps) /\
     snapPend (se_set (registerSnapExtension peer (close ps))) !! sp_id peer = Some peer /\
     se_send (registerSnapExtension peer (close ps)) = None) /\
  (forall wait, snapWait ps !! sp_id peer = Some wait ->
     se_set (registerSnapExtension peer (close ps))
     = set_snapWait (delete (sp_id peer)) (close ps) /\
     snapPend (se_set (registerSnapExtension peer (close ps))) = snapPend ps /\
     se_send (registerSnapExtension peer (close ps)) = Some (wait, peer)).
Proof.
  intros Hcap Hp Hs.
  assert (Hrest :
    (snapWait ps !! sp_id peer = None ->
       registerSnapExtension peer (close ps)
       = mkSnapExtResult (set_snapPend <[sp_id peer := peer]> (close ps)) None None) /\
    (forall wait, snapWait ps !! sp_id peer = Some wait ->
       registerSnapExtension peer (close ps)
       = mkSnapExtResult (set_snapWait (delete (sp_id peer)) (close ps)) None
                         (Some (wait, peer)))).
  { split.
    - intros Hw. by apply registerSnapExtension_track.
    - intros wait Hw. by apply registerSnapExtension_handoff. }
  destruct Hrest as [Htrack Hhand].
  destruct (snapWait ps !! sp_id peer) as [wait|] eqn:Hw.
  - rewrite (Hhand wait eq_refl). cbn.
    split; [done |]. split; [done |]. split; [done |].
    intros wait' [= <-]. done.
  - rewrite (Htrack eq_refl). cbn.
    split; [done |]. split; [done |]. split; [| done].
    intros _. split; [done |]. split; [| done].
    apply lookup_insert_eq.
Qed.

Lemma registerSnapExtension_after_close_witness :
  se_err (registerSnapExtension snapA (close newPeerSet)) = None /\
  snapPend (se_set (registerSnapExtension snapA (close newPeerSet))) !! "a" = Some snapA.
Proof.
  destruct (registerSnapExtension_after_close snapA newPeerSet)
    as (Herr & _ & Htrack & _); try reflexivity.
  split; [exact Herr |].
  apply Htrack. reflexivity.
Defined.

(** C10, as stated, fails when an [ong] peer waits for the id: on the closed
    set, the extension of [a] is accepted without error, but it is handed to
    the waiter and the pending set does not record it. *)
Lemma registerSnapExtension_closed_handoff :
  closed closedWaitingA = true /\
  sp_runningOng snapA = true /\
  peers closedWaitingA !! sp_id snapA = None /\
  snapPend closedWaitingA !! sp_id snapA = None /\
  se_err (registerSnapExtension snapA closedWaitingA) = None /\
  snapPend (se_set (registerSnapExtension snapA closedWaitingA)) !! sp_id snapA = None /\
  se_send (registerSnapExtension snapA closedWaitingA) = Some (0%nat, snapA).
Proof. repeat split; reflexivity. Qed.

End PeerSetFacts.

(** ** Blocked callers *)

Module WorldFacts.
Import PeerSet World PeerSetFacts.

Lemma runs_cons c cs w : runs (c :: cs) w = runs cs (run c w).
Proof. reflexivity. Qed.

Lemma runs_app cs1 cs2 w : runs (cs1 ++ cs2) w = runs cs2 (runs cs1 w).
Proof. unfold runs. apply fold_left_app. Qed.

(** Only the send of [registerSnapExtension] wakes a parked caller. *)
Lemma run_keeps_parked c w wait :
  isRegisterSnapExtension c = false -> wait ∈ w_parked w -> wait ∈ w_parked (run c w).
Proof.
  intros Hc Hin. destruct c as [ext|peer|peer ext|id|]; cbn in Hc |- *; try done.
  destruct (waitSnapExtension peer (w_next w) (w_set w)) as [ps [ext err|wait']]; cbn.
  - done.
  - set_solver.
Qed.

Lemma runs_keep_parked cs w wait :
  forallb (fun c => negb (isRegisterSnapExtension c)) cs = true ->
  wait ∈ w_parked w -> wait ∈ w_parked (runs cs w).
Proof.
  revert w. induction cs as [|c cs IH]; intros w Hcs Hin; [done |].
  cbn in Hcs. apply andb_prop in Hcs as [Hc Hcs].
  rewrite runs_cons. apply IH; [done |].
  apply run_keeps_parked; [| done]. by destruct (isRegisterSnapExtension c).
Qed.

Lemma run_close_parked w : w_parked (run Close w) = w_parked w.
Proof. reflexivity. Qed.

Lemma run_close_snapWait w : snapWait (w_set (run Close w)) = snapWait (w_set w).
Proof. reflexivity. Qed.

Lemma run_wait_parks w peer :
  op_runningSnap peer = true ->
  peers (w_set w) !! op_id peer = None ->
  snapWait (w_set w) !! op_id peer = None ->
  snapPend (w_set w) !! op_id peer = None ->
  run (WaitSnapExtension peer) w
  = {| w_set := set_snapWait <[op_id peer := w_next w]> (w_set w);
       w_parked := {[w_next w]} ∪ w_parked w;
       w_received := w_received w;
       w_next := S (w_next w) |}.
Proof.
  intros Hcap Hp Hw Hs. cbn.
  by rewrite (waitSnapExtension_parks peer (w_next w) (w_set w) Hcap Hp Hw Hs).
Qed.

Lemma run_register_delivers w ext wait :
  sp_runningOng ext = true ->
  peers (w_set w) !! sp_id ext = None ->
  snapPend (w_set w) !! sp_id ext = None ->
  snapWait (w_set w) !! sp_id ext = Some wait ->
  run (RegisterSnapExtension ext) w
  = {| w_set := set_snapWait (delete (sp_id ext)) (w_set w);
       w_parked := w_parked w ∖ {[wait]};
       w_received := <[wait := ext]> (w_received w);
       w_next := w_next w |}.
Proof.
  intros Hcap Hp Hs Hw. cbn.
  by rewrite (registerSnapExtension_handoff ext (w_set w) wait Hcap Hp Hs Hw).
Qed.

(** C2, as stated, fails: [close] wakes nobody. The caller that waits for the
    extension of [a] is still parked on its channel after the set has been
    closed, and has received nothing. *)
Lemma close_leaves_waiter_parked :
  op_runningSnap peerA = true /\
  closed (w_set closedWhileWaitingA) = true /\
  snapWait (w_set closedWhileWaitingA) !! op_id peerA = Some 0%nat /\
  0%nat ∈ w_parked closedWhileWaitingA /\
  w_received closedWhileWaitingA !! 0%nat = None.
Proof.
  split; [reflexivity |]. split; [reflexivity |]. split; [reflexivity |].
  split; [| reflexivity].
  vm_compute. reflexivity.
Qed.

(** *** Reachable states *)

Lemma run_table_size c w :
  (size (peers (w_set (run c w))) <= S (size (peers (w_set w))))%nat.
Proof.
  destruct c as [ext|peer|peer ext|id|]; cbn.
  - destruct (registerSnapExtension_table ext (w_set w)) as (Ht & _).
    destruct (se_send (registerSnapExtension ext (w_set w))) as [[wait v]|];
      cbn; rewrite Ht; lia.
  - destruct (waitSnapExtension_table peer (w_next w) (w_set w)) as (Ht & _).
    destruct (waitSnapExtension peer (w_next w) (w_set w)) as [ps [e err|wait]];
      cbn in *; rewrite Ht; lia.
  - unfold registerPeer. destruct (closed (w_set w)); [cbn; lia |].
    destruct (peers (w_set w) !! op_id peer) eqn:Hp; [cbn; lia |].
    destruct ext; cbn; rewrite map_size_insert_None by done; lia.
  - unfold unregisterPeer.
    destruct (peers (w_set w) !! id) as [p|] eqn:Hp; [| cbn; lia].
    destruct (snapExt p); cbn; rewrite map_size_delete_Some by (by eexists); lia.
  - lia.
Qed.

Lemma run_snapInv c w :
  snapInv (w_set w) -> len (w_set w) < maxInt -> snapInv (w_set (run c w)).
Proof.
  intros Hinv Hlen. destruct c as [ext|peer|peer ext|id|]; cbn.
  - pose proof (snapInv_registerSnapExtension ext (w_set w) Hinv).
    by destruct (se_send (registerSnapExtension ext (w_set w))) as [[wait v]|].
  - pose proof (snapInv_waitSnapExtension peer (w_next w) (w_set w) Hinv).
    by destruct (waitSnapExtension peer (w_next w) (w_set w)) as [ps [e err|wait]].
  - by apply snapInv_registerPeer.
  - by apply snapInv_unregisterPeer.
  - by apply snapInv_close.
Qed.

Lemma runs_snapInv cs w :
  snapInv (w_set w) ->
  len (w_set w) + Z.of_nat (length cs) <= maxInt ->
  snapInv (w_set (runs cs w)).
Proof.
  revert w. induction cs as [|c cs IH]; intros w Hinv Hlen; [done |].
  rewrite runs_cons. cbn [length] in Hlen. apply IH.
  - apply run_snapInv; [done | lia].
  - pose proof (run_table_size c w). unfold len in *. lia.
Qed.

Lemma run_pendWaitDisjoint c w :
  pendWaitDisjoint (w_set w) -> pendWaitDisjoint (w_set (run c w)).
Proof.
  intros Hinv. destruct c as [ext|peer|peer ext|id|]; cbn.
  - unfold registerSnapExtension.
    destruct (negb (sp_runningOng ext)); [done |].
    destruct (peers (w_set w) !! sp_id ext); [done |].
    destruct (snapPend (w_set w) !! sp_id ext) eqn:Hs; [done |].
    destruct (snapWait (w_set w) !! sp_id ext) as [wait|] eqn:Hw; cbn.
    + intros id Hid. cbn in *.
      destruct (decide (sp_id ext = id)) as [<- | Hne];
        [apply lookup_delete_eq | rewrite lookup_delete_ne by done; by apply Hinv].
    + intros id Hid. cbn in *.
      destruct (decide (sp_id ext = id)) as [<- | Hne]; [done |].
      rewrite lookup_insert_ne in Hid by done. by apply Hinv.
  - unfold waitSnapExtension.
    destruct (negb (op_runningSnap peer)); [done |].
    destruct (peers (w_set w) !! op_id peer); [done |].
    destruct (snapWait (w_set w) !! op_id peer) eqn:Hw; [done |].
    destruct (snapPend (w_set w) !! op_id peer) as [snap|] eqn:Hs; cbn.
    + intros id Hid. cbn in *.
      destruct (decide (op_id peer = id)) as [<- | Hne];
        [by rewrite lookup_delete_eq in Hid; destruct Hid |].
      rewrite lookup_delete_ne in Hid by done. by apply Hinv.
    + intros id Hid. cbn in *.
      destruct (decide (op_id peer = id)) as [<- | Hne];
        [rewrite Hs in Hid; by destruct Hid |].
      rewrite lookup_insert_ne by done. by apply Hinv.
  - unfold registerPeer. destruct (closed (w_set w)); [done |].
    destruct (peers (w_set w) !! op_id peer); [done |]. by destruct ext.
  - unfold unregisterPeer. destruct (peers (w_set w) !! id) as [p|]; [| done].
    by destruct (snapExt p).
  - done.
Qed.

Lemma reachable_pendWaitDisjoint cs : pendWaitDisjoint (w_set (runs cs newWorld)).
Proof.
  assert (Hgen : forall w, pendWaitDisjoint (w_set w) ->
                           pendWaitDisjoint (w_set (runs cs w))).
  { induction cs as [|c cs IH]; intros w Hw; [done |].
    rewrite runs_cons. by apply IH, run_pendWaitDisjoint. }
  apply Hgen. intros id [x Hx]. cbn in Hx. by rewrite lookup_empty in Hx.
Qed.

(** C9. The counter [snapPeers] equals the number of registered peers that
    carry a [snap] extension: this holds for the new set, each of
    [registerPeer], [unregisterPeer], [registerSnapExtension],
    [waitSnapExtension] and [close] keeps it (on a table that Go can still
    extend, whose length is below the largest [int]), and so every state
    reached from the new set satisfies it. Consequently [snapLen] never
    exceeds [len]. *)
Theorem snapPeers_counts_snap_peers :
  snapInv newPeerSet /\
  (forall ps, snapInv ps -> len ps < maxInt ->
     (forall peer ext, snapInv (registerPeer peer ext ps).1) /\
     (forall id, snapInv (unregisterPeer id ps).1) /\
     (forall ext, snapInv (se_set (registerSnapExtension ext ps))) /\
     (forall peer wait, snapInv (waitSnapExtension peer wait ps).1) /\
     snapInv (close ps)) /\
  (forall ps, snapInv ps -> 0 <= snapLen ps <= len ps) /\
  (forall cs, Z.of_nat (length cs) <= maxInt ->
     snapInv (w_set (runs cs newWorld)) /\
     0 <= snapLen (w_set (runs cs newWorld)) <= len (w_set (runs cs newWorld))).
Proof.
  split; [apply snapInv_newPeerSet |].
  split; [| split; [apply snapInv_snapLen_le |]].
  - intros ps Hinv Hlen.
    split; [intros; by apply snapInv_registerPeer |].
    split; [intros; by apply snapInv_unregisterPeer |].
    split; [intros; by apply snapInv_registerSnapExtension |].
    split; [intros; by apply snapInv_waitSnapExtension |].
    by apply snapInv_close.
  - intros cs Hlen.
    assert (Hinv : snapInv (w_set (runs cs newWorld))).
    { apply runs_snapInv; [apply snapInv_newPeerSet |]. cbn. exact Hlen. }
    split; [exact Hinv | by apply snapInv_snapLen_le].
Qed.

Lemma snapPeers_counts_snap_peers_witness :
  snapInv (registerPeer peerC (Some snapC) (registerPeer peerA None newPeerSet).1).1 /\
  snapInv (w_set (runs [RegisterPeer peerA (Some snapA); RegisterPeer peerB None;
                        UnregisterPeer "a"; Close] newWorld)).
Proof.
  destruct snapPeers_counts_snap_peers as (_ & Hstep & _ & Hreach).
  split.
  - apply (Hstep (registerPeer peerA None newPeerSet).1).
    + unfold snapInv. vm_compute. reflexivity.
    + vm_compute. reflexivity.
  - apply (Hreach [RegisterPeer peerA (Some snapA); RegisterPeer peerB None;
                   UnregisterPeer "a"; Close]).
    vm_compute. discriminate.
Defined.

End WorldFacts.

(** ** Preserving local blocks during a reorg *)

Module BackendFacts.
Import Backend.

Lemma rangeLocals_true locals author :
  rangeLocals locals author = true <-> author ∈ locals.
Proof.
  induction locals as [|account rest IH]; cbn.
  - split; [discriminate | by intros ?%not_elem_of_nil].
  - destruct (N.eqb_spec account author) as [-> | Hne].
    + split; [intros _; apply list_elem_of_here | done].
    + rewrite IH. split; [apply list_elem_of_further |].
      intros [? | ?]%elem_of_cons; [congruence | done].
Qed.

Lemma isLocalBlock_true s block :
  isLocalBlock s block = true <->
  exists author, Author (engine s) (header block) = inl author /\
                 (author = ongerbase s \/ author ∈ TxPool_Locals s).
Proof.
  unfold isLocalBlock.
  destruct (Author (engine s) (header block)) as [author | err].
  - destruct (N.eqb_spec author (ongerbase s)) as [Heq | Hne].
    + split; [intros _; exists author; auto | done].
    + rewrite rangeLocals_true. split.
      * intros Hin. exists author. auto.
      * intros (a & [= <-] & [Ha | Ha]); [congruence | done].
  - split; [discriminate | intros (a & Ha & _); discriminate].
Qed.

Lemma isLocalBlock_author_error s block err :
  Author (engine s) (header block) = inr err -> isLocalBlock s block = false.
Proof. intros He. unfold isLocalBlock. by rewrite He. Qed.

(** [shouldPreserve] answers true for a block exactly when the engine is not
    the clique engine and the author of the block, as the engine reports it,
    equals the [ongerbase] field of the node or one of the addresses of
    [TxPool.Locals]. The field is compared as it is, the zero address
    included. Under the clique engine the answer is false for every block. *)
Theorem shouldPreserve_spec s block :
  (shouldPreserve s block = true <->
     engineKind (engine s) <> Clique /\
     exists author, Author (engine s) (header block) = inl author /\
                    (author = ongerbase s \/ author ∈ TxPool_Locals s)) /\
  (engineKind (engine s) = Clique -> shouldPreserve s block = false).
Proof.
  unfold shouldPreserve. split.
  - destruct (engineKind (engine s)).
    + split; [discriminate | intros [Hne _]; by destruct Hne].
    + rewrite isLocalBlock_true. split; [intros H; split; [discriminate | exact H] |].
      intros [_ H]. exact H.
  - intros ->. reflexivity.
Qed.

Lemma shouldPreserve_spec_witness :
  shouldPreserve poaNode (blockBy 5%N) = false /\
  shouldPreserve powNode (blockBy 7%N) = true.
Proof.
  split.
  - apply (shouldPreserve_spec poaNode (blockBy 5%N)). reflexivity.
  - apply (shouldPreserve_spec powNode (blockBy 7%N)).
    split; [discriminate |].
    exists 7%N. split; [reflexivity |]. right.
    apply list_elem_of_further, list_elem_of_here.
Defined.

Example shouldPreserve_remote_author : shouldPreserve powNode (blockBy 8%N) = false.
Proof. reflexivity. Qed.

End BackendFacts.

(** ** Fast sync is a one-way switch *)

Module SyncFacts.
Import Sync.

Lemma steps_cons e es h : steps (e :: es) h = steps es (step e h).
Proof. reflexivity. Qed.

Lemma steps_app es1 es2 h : steps (es1 ++ es2) h = steps es2 (steps es1 h).
Proof. unfold steps. apply fold_left_app. Qed.

Lemma step_keeps_disabled e h : fastSync h = 0 -> fastSync (step e h) = 0.
Proof. intros Hoff. by destruct e. Qed.

Lemma steps_keep_disabled es h : fastSync h = 0 -> fastSync (steps es h) = 0.
Proof.
  revert h. induction es as [|e es IH]; intros h Hoff; [done |].
  rewrite steps_cons. by apply IH, step_keeps_disabled.
Qed.

Lemma newHandler_blocks head : head <> 0%N -> fastSync (newHandler head) = 0.
Proof. intros Hne. unfold newHandler. cbn. by destruct (N.eqb_spec head 0). Qed.

(** C1. On an empty local chain the handler starts with fast sync enabled,
    and starting a sync there leaves it enabled. Once a full block has been
    imported, fast sync is disabled and stays disabled whatever happens
    later in the process: further imports, failed imports, a sync started
    against a fresh peer, or the chain being found empty again. *)
Theorem fastSync_one_way :
  fastSync (newHandler 0) = 1 /\
  (forall peer, fastSync (step (StartSync peer) (newHandler 0)) = 1) /\
  (forall h before later,
     fastSync (steps (before ++ ImportBlock :: later) h) = 0).
Proof.
  split; [reflexivity |]. split; [reflexivity |].
  intros h before later.
  rewrite steps_app, steps_cons.
  by apply steps_keep_disabled.
Qed.

Example fastSync_stays_off :
  fastSync (steps [StartSync "full"; ImportBlock; ChainFoundEmpty; StartSync "fresh"]
                  (newHandler 0)) = 0.
Proof. reflexivity. Qed.

Example fastSync_full_handler : fastSync (newHandler 1024) = 0.
Proof. reflexivity. Qed.

End SyncFacts.

(** ** More on the peer set: errors, round trips, reachable states *)

Module PeerSetMoreFacts.
Import PeerSet World PeerSetInv PeerSetFacts WorldFacts.

(** Break up the facts a guard chain leaves behind. *)
Ltac guard_facts :=
  repeat match goal with
         | H : _ /\ _ |- _ => destruct H
         | H : _ \/ _ |- _ => destruct H
         | H : is_Some None |- _ => destruct H; discriminate
         | H : Some _ = None |- _ => discriminate
         | H : None = Some _ |- _ => discriminate
         end.

(** X1. [registerSnapExtension] reports [errSnapWithoutOng] exactly for a peer
    that does not run [ong], whatever the set holds; for a peer that runs it,
    [errPeerAlreadyRegistered] exactly when the id is registered or pending;
    it succeeds in the remaining case only. A failing call leaves the set
    unchanged and sends nothing. *)
Theorem registerSnapExtension_errors ext ps :
  (se_err (registerSnapExtension ext ps) = Some errSnapWithoutOng <->
     sp_runningOng ext = false) /\
  (se_err (registerSnapExtension ext ps) = Some errPeerAlreadyRegistered <->
     sp_runningOng ext = true /\
     (is_Some (peers ps !! sp_id ext) \/ is_Some (snapPend ps !! sp_id ext))) /\
  (se_err (registerSnapExtension ext ps) = None <->
     sp_runningOng ext = true /\
     peers ps !! sp_id ext = None /\ snapPend ps !! sp_id ext = None) /\
  (se_err (registerSnapExtension ext ps) <> None ->
     se_set (registerSnapExtension ext ps) = ps /\
     se_send (registerSnapExtension ext ps) = None).
Proof.
  unfold registerSnapExtension.
  destruct (sp_runningOng ext); cbn [negb];
    [destruct (peers ps !! sp_id ext) as [p|];
       [| destruct (snapPend ps !! sp_id ext) as [s|];
            [| destruct (snapWait ps !! sp_id ext) as [wait|]]] |];
    cbn; repeat split; intros; guard_facts;
    first [done | congruence | by left; eexists | by right; eexists].
Qed.

Lemma registerSnapExtension_errors_witness :
  se_set (registerSnapExtension snapA pendingAndRegisteredA) = pendingAndRegisteredA /\
  se_send (registerSnapExtension snapA pendingAndRegisteredA) = None.
Proof.
  apply (registerSnapExtension_errors snapA pendingAndRegisteredA).
  vm_compute. discriminate.
Defined.

(** X2. [waitSnapExtension] fails only with [errPeerAlreadyRegistered], and
    does so exactly for a peer that advertises [snap] and whose id is already
    registered or already has a waiter (a second wait for the same id is
    refused). A failing call returns no extension and leaves the set
    unchanged. *)
Theorem waitSnapExtension_refusals peer wait ps :
  ((waitSnapExtension peer wait ps).2 = WaitReturn None (Some errPeerAlreadyRegistered) <->
     op_runningSnap peer = true /\
     (is_Some (peers ps !! op_id peer) \/ is_Some (snapWait ps !! op_id peer))) /\
  (forall ext err,
     (waitSnapExtension peer wait ps).2 = WaitReturn ext (Some err) ->
     err = errPeerAlreadyRegistered /\ ext = None /\
     (waitSnapExtension peer wait ps).1 = ps).
Proof.
  unfold waitSnapExtension.
  destruct (op_runningSnap peer); cbn [negb];
    [destruct (peers ps !! op_id peer) as [p|];
       [| destruct (snapWait ps !! op_id peer) as [w|];
            [| destruct (snapPend ps !! op_id peer) as [s|]]] |];
    cbn; repeat split; intros; guard_facts;
    first [done | congruence | by left; eexists | by right; eexists].
Qed.

Lemma waitSnapExtension_refusals_witness :
  (waitSnapExtension peerA 1%nat (waitSnapExtension peerA 0%nat newPeerSet).1).2
  = WaitReturn None (Some errPeerAlreadyRegistered).
Proof.
  apply (waitSnapExtension_refusals peerA 1%nat (waitSnapExtension peerA 0%nat newPeerSet).1).
  split; [reflexivity |]. right. vm_compute. eexists. reflexivity.
Defined.

Lemma peerSet_eq ps1 ps2 :
  peers ps1 = peers ps2 -> snapPeers ps1 = snapPeers ps2 ->
  snapWait ps1 = snapWait ps2 -> snapPend ps1 = snapPend ps2 ->
  closed ps1 = closed ps2 -> ps1 = ps2.
Proof. destruct ps1, ps2; cbn; intros; by subst. Qed.

(** X3. The two halves of a connection meet in either order. When the id is
    unknown to the set, registering the [snap] side and then waiting from the
    [ong] side returns that extension at once; waiting first and registering
    afterwards sends the extension on the waiter's channel. Either way the set
    ends up exactly as it was before the two calls. *)
Theorem snap_ong_rendezvous ext peer wait ps :
  sp_id ext = op_id peer ->
  sp_runningOng ext = true -> op_runningSnap peer = true ->
  peers ps !! op_id peer = None ->
  snapWait ps !! op_id peer = None ->
  snapPend ps !! op_id peer = None ->
  waitSnapExtension peer wait (se_set (registerSnapExtension ext ps))
  = (ps, WaitReturn (Some ext) None) /\
  (waitSnapExtension peer wait ps).2 = WaitRecv wait /\
  registerSnapExtension ext (waitSnapExtension peer wait ps).1
  = mkSnapExtResult ps None (Some (wait, ext)).
Proof.
  intros Hid Hong Hsnap Hp Hw Hs.
  assert (Hp' : peers ps !! sp_id ext = None) by (by rewrite Hid).
  assert (Hw' : snapWait ps !! sp_id ext = None) by (by rewrite Hid).
  assert (Hs' : snapPend ps !! sp_id ext = None) by (by rewrite Hid).
  split; [| split].
  - rewrite (registerSnapExtension_track ext ps Hong Hp' Hs' Hw'). cbn [se_set].
    rewrite (waitSnapExtension_pending peer wait _ ext Hsnap); cbn; try done.
    + f_equal. apply peerSet_eq; cbn; try done.
      rewrite Hid. by apply delete_insert_id.
    + rewrite Hid. apply lookup_insert_eq.
  - by rewrite (waitSnapExtension_parks peer wait ps).
  - rewrite (waitSnapExtension_parks peer wait ps Hsnap Hp Hw Hs). cbn [fst].
    rewrite (registerSnapExtension_handoff ext _ wait Hong); cbn; try done.
    + f_equal. apply peerSet_eq; cbn; try done.
      rewrite Hid. by apply delete_insert_id.
    + rewrite Hid. apply lookup_insert_eq.
Qed.

Lemma snap_ong_rendezvous_witness :
  waitSnapExtension peerA 0%nat (se_set (registerSnapExtension snapA newPeerSet))
  = (newPeerSet, WaitReturn (Some snapA) None).
Proof.
  apply (snap_ong_rendezvous snapA peerA 0%nat newPeerSet); reflexivity.
Defined.

Lemma wrapInt_succ_pred n : minInt <= n <= maxInt -> wrapInt (wrapInt (n + 1) - 1) = n.
Proof.
  intros Hn. destruct (Z.eq_dec n maxInt) as [-> | Hne].
  - reflexivity.
  - rewrite (wrapInt_small (n + 1)) by (unfold minInt, maxInt in *; lia).
    replace (n + 1 - 1) with n by lia. by apply wrapInt_small.
Qed.

(** X4. Registering a peer and unregistering it again is a round trip: on a
    set that is not closed and does not hold the id, [unregisterPeer] after
    [registerPeer] succeeds and gives back the original set, counter
    included, with or without an extension. *)
Theorem register_unregister_roundtrip peer ext ps :
  closed ps = false ->
  peers ps !! op_id peer = None ->
  minInt <= snapPeers ps <= maxInt ->
  unregisterPeer (op_id peer) (registerPeer peer ext ps).1 = (ps, None).
Proof.
  intros Hc Hn Hrange. unfold registerPeer. rewrite Hc, Hn.
  destruct ext as [e|]; cbn [fst]; unfold unregisterPeer; cbn;
    rewrite lookup_insert_eq; cbn; f_equal; apply peerSet_eq; cbn; try done.
  - by apply delete_insert_id.
  - by apply wrapInt_succ_pred.
  - by apply delete_insert_id.
Qed.

Lemma register_unregister_roundtrip_witness :
  unregisterPeer "a" (registerPeer peerA (Some snapA) newPeerSet).1 = (newPeerSet, None).
Proof.
  apply (register_unregister_roundtrip peerA (Some snapA) newPeerSet).
  - reflexivity.
  - reflexivity.
  - vm_compute. split; discriminate.
Defined.

(** *** After [close] *)

Lemma run_closed_table c w :
  closed (w_set w) = true ->
  closed (w_set (run c w)) = true /\ peers (w_set (run c w)) ⊆ peers (w_set w).
Proof.
  intros Hc. destruct c as [ext|peer|peer ext|id|]; cbn.
  - destruct (registerSnapExtension_table ext (w_set w)) as (Ht & _ & Hcl).
    destruct (se_send (registerSnapExtension ext (w_set w))) as [[wait v]|];
      cbn; by rewrite Ht, Hcl.
  - destruct (waitSnapExtension_table peer (w_next w) (w_set w)) as (Ht & _ & Hcl).
    destruct (waitSnapExtension peer (w_next w) (w_set w)) as [ps [e err|wait]];
      cbn in *; by rewrite Ht, Hcl.
  - by rewrite registerPeer_closed.
  - unfold unregisterPeer. destruct (peers (w_set w) !! id) as [p|]; [| done].
    destruct (snapExt p); cbn; (split; [done | apply delete_subseteq]).
  - done.
Qed.

(** X5. Closing is final for the table. After [close], whatever calls follow
    (registrations of peers or extensions, waits, removals, further closes),
    the set stays closed and its table only shrinks: every entry it holds
    later was already there, unchanged, when the set was closed. *)
Theorem closed_table_never_grows cs w :
  closed (w_set w) = true ->
  closed (w_set (runs cs w)) = true /\
  peers (w_set (runs cs w)) ⊆ peers (w_set w) /\
  len (w_set (runs cs w)) <= len (w_set w).
Proof.
  revert w. induction cs as [|c cs IH]; intros w Hc.
  - cbn. split; [done |]. split; [done | lia].
  - rewrite runs_cons.
    destruct (run_closed_table c w Hc) as [Hc1 Hsub1].
    destruct (IH (run c w) Hc1) as (Hc2 & Hsub2 & _).
    assert (Hsub : peers (w_set (runs cs (run c w))) ⊆ peers (w_set w))
      by (etrans; eassumption).
    split; [done |]. split; [done |].
    unfold len. apply Nat2Z.inj_le. by apply map_subseteq_size.
Qed.

Lemma closed_table_never_grows_witness :
  len (w_set (runs [RegisterPeer peerB None; RegisterSnapExtension snapC]
                   closedWhileWaitingA)) <= len (w_set closedWhileWaitingA).
Proof.
  apply (closed_table_never_grows [RegisterPeer peerB None; RegisterSnapExtension snapC]
           closedWhileWaitingA).
  reflexivity.
Defined.

(** *** Waiters and their channels *)

Lemma parkedInv_newWorld : parkedInv newWorld.
Proof.
  split; [| split]; cbn.
  - intros ch. split; [by intros ?%not_elem_of_empty |].
    intros [id Hid]. by rewrite lookup_empty in Hid.
  - intros id ch Hid. by rewrite lookup_empty in Hid.
  - intros id1 id2 ch Hid. by rewrite lookup_empty in Hid.
Qed.

Lemma run_parkedInv c w : parkedInv w -> parkedInv (run c w).
Proof.
  intros (Hpark & Hfresh & Hinj).
  destruct c as [ext|peer|peer ext|id|]; cbn.
  - unfold registerSnapExtension.
    destruct (negb (sp_runningOng ext)); [done |].
    destruct (peers (w_set w) !! sp_id ext); [done |].
    destruct (snapPend (w_set w) !! sp_id ext); [done |].
    destruct (snapWait (w_set w) !! sp_id ext) as [wait|] eqn:Hw; cbn; [| done].
    split; [| split]; cbn.
    + intros ch. rewrite elem_of_difference, elem_of_singleton, Hpark. split.
      * intros [[id Hid] Hne]. exists id.
        rewrite lookup_delete_ne; [done |]. intros <-. congruence.
      * intros [id Hid]. apply lookup_delete_Some in Hid as [Hne Hid].
        split; [by exists id |]. intros ->. by apply Hne, (Hinj _ _ wait).
    + intros id ch [_ Hid]%lookup_delete_Some. by eapply Hfresh.
    + intros id1 id2 ch [_ H1]%lookup_delete_Some [_ H2]%lookup_delete_Some.
      by eapply Hinj.
  - unfold waitSnapExtension.
    destruct (negb (op_runningSnap peer)); [done |].
    destruct (peers (w_set w) !! op_id peer); [done |].
    destruct (snapWait (w_set w) !! op_id peer) eqn:Hw; [done |].
    destruct (snapPend (w_set w) !! op_id peer); cbn; [done |].
    split; [| split]; cbn.
    + intros ch. rewrite elem_of_union, elem_of_singleton, Hpark. split.
      * intros [-> | [id Hid]]; [exists (op_id peer); apply lookup_insert_eq |].
        exists id. rewrite lookup_insert_ne; [done |]. intros <-. congruence.
      * intros [id Hid]. apply lookup_insert_Some in Hid as [[_ <-] | [_ Hid]];
          [by left | right; by exists id].
    + intros id ch Hid. apply lookup_insert_Some in Hid as [[_ <-] | [_ Hid]]; [lia |].
      specialize (Hfresh id ch Hid). lia.
    + intros id1 id2 ch H1 H2.
      apply lookup_insert_Some in H1 as [[<- <-] | [Hn1 H1]];
        apply lookup_insert_Some in H2 as [[<- Heq] | [Hn2 H2]]; try done.
      * specialize (Hfresh id2 _ H2). lia.
      * subst ch. specialize (Hfresh id1 _ H1). lia.
      * by eapply Hinj.
  - unfold registerPeer. destruct (closed (w_set w)); [done |].
    destruct (peers (w_set w) !! op_id peer); [done |]. by destruct ext.
  - unfold unregisterPeer. destruct (peers (w_set w) !! id) as [p|]; [| done].
    by destruct (snapExt p).
  - done.
Qed.

(** X6. In every state reached from the new set, the callers blocked in
    [waitSnapExtension] are exactly the owners of the channels stored in
    [snapWait], one id per channel, so each of them can still be woken by
    registering the extension of its id; and no id has a waiter and a pending
    extension at the same time. *)
Theorem waiters_match_snapWait cs :
  (forall ch, ch ∈ w_parked (runs cs newWorld) <->
              exists id, snapWait (w_set (runs cs newWorld)) !! id = Some ch) /\
  (forall id1 id2 ch,
     snapWait (w_set (runs cs newWorld)) !! id1 = Some ch ->
     snapWait (w_set (runs cs newWorld)) !! id2 = Some ch -> id1 = id2) /\
  (forall id, is_Some (snapPend (w_set (runs cs newWorld)) !! id) ->
              snapWait (w_set (runs cs newWorld)) !! id = None).
Proof.
  assert (Hgen : forall w, parkedInv w -> parkedInv (runs cs w)).
  { induction cs as [|c cs IH]; intros w Hw; [done |].
    rewrite runs_cons. by apply IH, run_parkedInv. }
  destruct (Hgen newWorld parkedInv_newWorld) as (Hpark & _ & Hinj).
  split; [exact Hpark |]. split; [exact Hinj |].
  apply reachable_pendWaitDisjoint.
Qed.

(** *** Entries are stored under their own id *)

Lemma run_keyedById c w : keyedById (w_set w) -> keyedById (w_set (run c w)).
Proof.
  intros Hkey. destruct c as [ext|peer|peer ext|id|]; cbn.
  - destruct (registerSnapExtension_table ext (w_set w)) as (Ht & _).
    unfold keyedById.
    destruct (se_send (registerSnapExtension ext (w_set w))) as [[wait v]|];
      cbn; by rewrite Ht.
  - destruct (waitSnapExtension_table peer (w_next w) (w_set w)) as (Ht & _).
    unfold keyedById.
    destruct (waitSnapExtension peer (w_next w) (w_set w)) as [ps [e err|wait]];
      cbn in *; by rewrite Ht.
  - unfold registerPeer. destruct (closed (w_set w)); [done |].
    destruct (peers (w_set w) !! op_id peer); [done |].
    destruct ext; cbn; intros id p Hp; cbn in Hp;
      (apply lookup_insert_Some in Hp as [[<- <-] | [_ Hp]]; [done | by apply Hkey]).
  - unfold unregisterPeer. destruct (peers (w_set w) !! id) as [p|]; [| done].
    destruct (snapExt p); cbn; intros id' q Hq; cbn in Hq;
      apply lookup_delete_Some in Hq as [_ Hq]; by apply Hkey.
  - done.
Qed.

Lemma reachable_keyedById cs : keyedById (w_set (runs cs newWorld)).
Proof.
  assert (Hgen : forall w, keyedById (w_set w) -> keyedById (w_set (runs cs w))).
  { induction cs as [|c cs IH]; intros w Hw; [done |].
    rewrite runs_cons. by apply IH, run_keyedById. }
  apply Hgen. intros id p Hp. cbn in Hp. by rewrite lookup_empty in Hp.
Qed.

Lemma peerWithHighestTD_visited order best :
  peerWithHighestTD order = Some best ->
  exists i p, isFirstHighest (order.*2) i p /\ best = Peer p.
Proof.
  unfold peerWithHighestTD. pose proof (highestStep_loop (order.*2)) as Hloop.
  destruct (fold_left highestStep (order.*2) None) as [[bp btd]|]; [| done].
  destruct Hloop as (i & p & Hfirst & -> & _). intros [= <-]. eauto.
Qed.

(** X7. In every state reached from the new set each table entry is stored
    under the id of its peer. Hence, once [unregisterPeer] has run for an id,
    no selection query and no best-peer query returns a peer with that id,
    whatever order the iteration takes. *)
Theorem unregistered_id_never_selected cs id order hash :
  rangeOrder (peers (unregisterPeer id (w_set (runs cs newWorld))).1) order ->
  keyedById (w_set (runs cs newWorld)) /\
  (forall p, p ∈ peersWithoutBlock order hash -> ID p <> id) /\
  (forall p, p ∈ peersWithoutTransaction order hash -> ID p <> id) /\
  (forall best, peerWithHighestTD order = Some best -> op_id best <> id).
Proof.
  intros Hord. pose proof (reachable_keyedById cs) as Hkey.
  set (ps := w_set (runs cs newWorld)) in *.
  assert (Hvis : forall p, p ∈ order.*2 -> ID p <> id).
  { intros p Hp.
    apply (rangeOrder_values _ order p Hord) in Hp as [id' Hp].
    assert (Hdel : delete id (peers ps) !! id' = Some p).
    { revert Hp. unfold unregisterPeer.
      destruct (peers ps !! id) as [q|] eqn:Hq.
      - by destruct (snapExt q).
      - cbn. intros Hp. rewrite lookup_delete_ne; [done |]. intros <-. congruence. }
    apply lookup_delete_Some in Hdel as [Hne Hin].
    rewrite (Hkey id' p Hin). congruence. }
  split; [exact Hkey |]. split; [| split].
  - intros p. rewrite peersWithoutBlock_filter.
    intros [_ Hp]%list_elem_of_filter. by apply Hvis.
  - intros p. rewrite peersWithoutTransaction_filter.
    intros [_ Hp]%list_elem_of_filter. by apply Hvis.
  - intros best Hbest.
    apply peerWithHighestTD_visited in Hbest as (i & p & (Hi & _) & ->).
    apply (Hvis p). by eapply list_elem_of_lookup_2.
Qed.

Lemma unregistered_id_never_selected_witness :
  peerWithHighestTD
    (map_to_list (peers (unregisterPeer "a"
       (w_set (runs [RegisterPeer peerA None; RegisterPeer peerC None] newWorld))).1))
  = Some peerC /\
  op_id peerC <> "a".
Proof.
  split; [reflexivity |].
  destruct (unregistered_id_never_selected
              [RegisterPeer peerA None; RegisterPeer peerC None] "a"
              (map_to_list (peers (unregisterPeer "a"
                 (w_set (runs [RegisterPeer peerA None; RegisterPeer peerC None]
                              newWorld))).1)) 0%N) as (_ & _ & _ & Hbest).
  - unfold rangeOrder. reflexivity.
  - apply (Hbest peerC). reflexivity.
Defined.

(** X8. The choice of [peerWithHighestTD] depends on the iteration order only
    through ties: any two iterations over the same table return peers with
    the same total difficulty, and when one registered peer has a total
    difficulty strictly above that of every other entry, every iteration
    returns that peer. *)
Theorem peerWithHighestTD_order_independent (m : gmap string ongPeer) o1 o2 :
  rangeOrder m o1 -> rangeOrder m o2 ->
  op_td <$> peerWithHighestTD o1 = op_td <$> peerWithHighestTD o2 /\
  (forall id p,
     m !! id = Some p ->
     (forall id' q, m !! id' = Some q -> id' <> id -> op_td (Peer q) < op_td (Peer p)) ->
     peerWithHighestTD o1 = Some (Peer p) /\ peerWithHighestTD o2 = Some (Peer p)).
Proof.
  intros H1 H2.
  assert (Hmax : forall o best, rangeOrder m o -> peerWithHighestTD o = Some best ->
            exists id p, m !! id = Some p /\ best = Peer p /\
                         forall id' q, m !! id' = Some q -> op_td (Peer q) <= op_td (Peer p)).
  { intros o best Ho Hbest.
    apply peerWithHighestTD_visited in Hbest as (i & p & (Hi & Hle & _) & ->).
    apply list_lookup_fmap_Some in Hi as ([id p'] & Hp & Hi). cbn in Hp. subst p.
    exists id, p'. split; [| split; [done |]].
    - apply (rangeOrder_elem m o); [done | by eapply list_elem_of_lookup_2].
    - intros id' q Hq. apply (rangeOrder_elem m o id' q Ho) in Hq.
      apply list_elem_of_lookup_1 in Hq as [j Hj].
      apply (Hle j q). by rewrite list_lookup_fmap, Hj. }
  assert (Hnone : forall o, rangeOrder m o -> peerWithHighestTD o = None -> m = ∅).
  { intros o Ho Hn. unfold peerWithHighestTD in Hn.
    pose proof (highestStep_loop (o.*2)) as Hloop.
    destruct (fold_left highestStep (o.*2) None) as [[bp btd]|]; [done |].
    apply fmap_nil_inv in Hloop. subst o. unfold rangeOrder in Ho. symmetry in Ho.
    by apply Permutation_nil_r, map_to_list_empty_iff in Ho. }
  split.
  - destruct (peerWithHighestTD o1) as [b1|] eqn:E1,
             (peerWithHighestTD o2) as [b2|] eqn:E2; cbn.
    + destruct (Hmax o1 b1 H1 E1) as (i1 & p1 & Hp1 & -> & Hle1).
      destruct (Hmax o2 b2 H2 E2) as (i2 & p2 & Hp2 & -> & Hle2).
      f_equal. specialize (Hle1 _ _ Hp2). specialize (Hle2 _ _ Hp1). lia.
    + destruct (Hmax o1 b1 H1 E1) as (i1 & p1 & Hp1 & _).
      rewrite (Hnone o2 H2 E2), lookup_empty in Hp1. done.
    + destruct (Hmax o2 b2 H2 E2) as (i2 & p2 & Hp2 & _).
      rewrite (Hnone o1 H1 E1), lookup_empty in Hp2. done.
    + done.
  - intros id p Hp Htop.
    assert (Hone : forall o, rangeOrder m o -> peerWithHighestTD o = Some (Peer p)).
    { intros o Ho. destruct (peerWithHighestTD o) as [b|] eqn:E.
      - destruct (Hmax o b Ho E) as (id' & p' & Hp' & -> & Hle).
        destruct (decide (id' = id)) as [-> | Hne]; [congruence |].
        specialize (Htop id' p' Hp' Hne). specialize (Hle id p Hp). lia.
      - rewrite (Hnone o Ho E), lookup_empty in Hp. done. }
    split; by apply Hone.
Qed.

Lemma peerWithHighestTD_order_independent_witness :
  op_td <$> peerWithHighestTD (map_to_list (peers threePeers))
  = op_td <$> peerWithHighestTD (reverse (map_to_list (peers threePeers))).
Proof.
  apply (peerWithHighestTD_order_independent (peers threePeers)).
  - unfold rangeOrder. reflexivity.
  - unfold rangeOrder. apply reverse_Permutation.
Defined.

End PeerSetMoreFacts.

(** ** A blocked caller and the one call that wakes it *)

Module WaiterFacts.
Import PeerSet World PeerSetInv PeerSetFacts WorldFacts PeerSetMoreFacts.

Lemma reachable_parkedInv cs : parkedInv (runs cs newWorld).
Proof.
  assert (Hgen : forall w, parkedInv w -> parkedInv (runs cs w)).
  { induction cs as [|c cs IH]; intros w Hw; [done |].
    rewrite runs_cons. by apply IH, run_parkedInv. }
  apply Hgen, parkedInv_newWorld.
Qed.

Lemma runs_parkedInv cs w : parkedInv w -> parkedInv (runs cs w).
Proof.
  revert w. induction cs as [|c cs IH]; intros w Hw; [done |].
  rewrite runs_cons. by apply IH, run_parkedInv.
Qed.

Lemma registerPeer_snapWait peer ext ps :
  snapWait (registerPeer peer ext ps).1 = snapWait ps.
Proof.
  unfold registerPeer. destruct (closed ps); [done |].
  destruct (peers ps !! op_id peer); [done |]. by destruct ext.
Qed.

Lemma unregisterPeer_snapWait id ps : snapWait (unregisterPeer id ps).1 = snapWait ps.
Proof.
  unfold unregisterPeer. destruct (peers ps !! id) as [p|]; [| done].
  by destruct (snapExt p).
Qed.

(** One call, seen from a caller parked on [ch] for [id]: either the caller
    is still parked with its entry in place, or the call is a
    [registerSnapExtension] for that very id which hands it the extension. *)
Lemma run_waiter c w id ch :
  parkedInv w -> snapWait (w_set w) !! id = Some ch -> ch ∈ w_parked w ->
  (snapWait (w_set (run c w)) !! id = Some ch /\ ch ∈ w_parked (run c w)) \/
  (exists ext, c = RegisterSnapExtension ext /\ sp_id ext = id /\
               sp_runningOng ext = true /\
               w_received (run c w) !! ch = Some ext /\ ch ∉ w_parked (run c w)).
Proof.
  intros (_ & _ & Hinj) Hentry Hpark.
  destruct c as [ext|peer|peer ext|id'|].
  - cbn. unfold registerSnapExtension.
    destruct (sp_runningOng ext) eqn:Hong; cbn [negb]; [| by left].
    destruct (peers (w_set w) !! sp_id ext); [by left |].
    destruct (snapPend (w_set w) !! sp_id ext); [by left |].
    destruct (snapWait (w_set w) !! sp_id ext) as [wait|] eqn:Hw; cbn; [| by left].
    destruct (decide (sp_id ext = id)) as [Heq | Hne].
    + right. exists ext. rewrite Heq in Hw.
      assert (wait = ch) as -> by congruence.
      split; [done |]. split; [done |]. split; [done |].
      split; [apply lookup_insert_eq |].
      intros [_ Hn]%elem_of_difference. apply Hn. by apply elem_of_singleton.
    + left. split; [by rewrite lookup_delete_ne |].
      apply elem_of_difference. split; [done |].
      intros ->%elem_of_singleton. apply Hne. by apply (Hinj _ _ wait).
  - left. cbn. unfold waitSnapExtension.
    destruct (negb (op_runningSnap peer)); [done |].
    destruct (peers (w_set w) !! op_id peer); [done |].
    destruct (snapWait (w_set w) !! op_id peer) eqn:Hw; [done |].
    destruct (snapPend (w_set w) !! op_id peer); cbn; [done |].
    split.
    + rewrite lookup_insert_ne; [done |]. intros Heq. rewrite Heq in Hw. congruence.
    + apply elem_of_union. by right.
  - left. cbn. by rewrite registerPeer_snapWait.
  - left. cbn. by rewrite unregisterPeer_snapWait.
  - left. done.
Qed.

Lemma runs_waiter cs w id ch :
  parkedInv w -> snapWait (w_set w) !! id = Some ch -> ch ∈ w_parked w ->
  (snapWait (w_set (runs cs w)) !! id = Some ch /\ ch ∈ w_parked (runs cs w)) \/
  (exists cs1 ext cs2,
     cs = cs1 ++ RegisterSnapExtension ext :: cs2 /\
     sp_id ext = id /\ sp_runningOng ext = true /\
     w_received (runs (cs1 ++ [RegisterSnapExtension ext]) w) !! ch = Some ext /\
     ch ∉ w_parked (runs (cs1 ++ [RegisterSnapExtension ext]) w)).
Proof.
  revert w. induction cs as [|c cs IH]; intros w Hinv Hentry Hpark; [by left |].
  destruct (run_waiter c w id ch Hinv Hentry Hpark)
    as [[Hentry1 Hpark1] | (ext & -> & Hid & Hong & Hrecv & Hgone)].
  - rewrite runs_cons.
    destruct (IH (run c w) (run_parkedInv c w Hinv) Hentry1 Hpark1)
      as [Hstay | (cs1 & ext & cs2 & -> & Hid & Hong & Hrecv & Hgone)]; [by left |].
    right. exists (c :: cs1), ext, cs2. done.
  - right. exists [], ext, cs. done.
Qed.

(** C2, as amended. In a state reached from the new peer set, take a peer that
    advertises the [snap] capability and whose id is not registered and has
    neither a waiter nor a pending extension. [waitSnapExtension] parks its
    caller on a fresh channel stored under the id. [close] does not wake the
    caller. Whatever calls follow, the caller is still parked, with its entry
    in place, unless one of them was a [registerSnapExtension] of a [snap]
    peer with that very id, running [ong], which handed it the extension:
    the caller returns only through such a delivery. And as long as the entry
    is in place and the id is not registered, such a call does deliver, before
    or after [close]: the caller receives the extension and its entry is
    removed. *)
Theorem waitSnapExtension_blocks_until_delivery
    (cs0 : list call) (w : world) (peer : OngProtoPeer) :
  w = runs cs0 newWorld ->
  op_runningSnap peer = true ->
  peers (w_set w) !! op_id peer = None ->
  snapWait (w_set w) !! op_id peer = None ->
  snapPend (w_set w) !! op_id peer = None ->
  let wait := w_next w in
  let w1 := run (WaitSnapExtension peer) w in
  wait ∈ w_parked w1 /\
  snapWait (w_set w1) !! op_id peer = Some wait /\
  wait ∈ w_parked (run Close w1) /\
  (forall cs,
     (snapWait (w_set (runs cs w1)) !! op_id peer = Some wait /\
      wait ∈ w_parked (runs cs w1)) \/
     (exists cs1 ext cs2,
        cs = cs1 ++ RegisterSnapExtension ext :: cs2 /\
        sp_id ext = op_id peer /\ sp_runningOng ext = true /\
        w_received (runs (cs1 ++ [RegisterSnapExtension ext]) w1) !! wait = Some ext /\
        wait ∉ w_parked (runs (cs1 ++ [RegisterSnapExtension ext]) w1))) /\
  (forall cs ext,
     snapWait (w_set (runs cs w1)) !! op_id peer = Some wait ->
     peers (w_set (runs cs w1)) !! op_id peer = None ->
     sp_id ext = op_id peer -> sp_runningOng ext = true ->
     (wait ∉ w_parked (run (RegisterSnapExtension ext) (runs cs w1))) /\
     w_received (run (RegisterSnapExtension ext) (runs cs w1)) !! wait = Some ext /\
     snapWait (w_set (run (RegisterSnapExtension ext) (runs cs w1))) !! op_id peer = None).
Proof.
  intros Hreach Hcap Hp Hw Hs wait w1.
  assert (Hreach1 : w1 = runs (cs0 ++ [WaitSnapExtension peer]) newWorld).
  { unfold w1. rewrite runs_app, <- Hreach. done. }
  assert (Hinv1 : parkedInv w1) by (rewrite Hreach1; apply reachable_parkedInv).
  assert (Hw1 : w1 = {| w_set := set_snapWait <[op_id peer := wait]> (w_set w);
                        w_parked := {[wait]} ∪ w_parked w;
                        w_received := w_received w;
                        w_next := S wait |})
    by (by apply run_wait_parks).
  assert (Hpark : wait ∈ w_parked w1).
  { rewrite Hw1. cbn. apply elem_of_union. left. by apply elem_of_singleton. }
  assert (Hentry : snapWait (w_set w1) !! op_id peer = Some wait).
  { rewrite Hw1. cbn. apply lookup_insert_eq. }
  split; [exact Hpark |]. split; [exact Hentry |]. split; [exact Hpark |].
  split; [intros cs; by apply runs_waiter |].
  intros cs ext Hentry2 Hp2 Hid Hong.
  assert (Hs2 : snapPend (w_set (runs cs w1)) !! op_id peer = None).
  { destruct (snapPend (w_set (runs cs w1)) !! op_id peer) as [s|] eqn:Hpend; [| done].
    pose proof (reachable_pendWaitDisjoint ((cs0 ++ [WaitSnapExtension peer]) ++ cs))
      as Hdisj.
    rewrite runs_app, <- Hreach1 in Hdisj.
    rewrite (Hdisj (op_id peer)) in Hentry2; [done | by rewrite Hpend]. }
  rewrite <- Hid in Hentry2, Hp2, Hs2.
  rewrite (run_register_delivers (runs cs w1) ext wait Hong Hp2 Hs2 Hentry2). cbn.
  split; [| split; [apply lookup_insert_eq | rewrite <- Hid; apply lookup_delete_eq]].
  intros [_ Hn]%elem_of_difference. apply Hn. by apply elem_of_singleton.
Qed.

Lemma waitSnapExtension_blocks_until_delivery_witness :
  0%nat ∈ w_parked (run Close (run (WaitSnapExtension peerA) newWorld)) /\
  w_received (run (RegisterSnapExtension snapA)
                  (run Close (run (WaitSnapExtension peerA) newWorld))) !! 0%nat
  = Some snapA.
Proof.
  destruct (waitSnapExtension_blocks_until_delivery [] newWorld peerA)
    as (_ & _ & Hclose & _ & Hdeliver); try reflexivity.
  split; [exact Hclose |].
  apply (Hdeliver [Close] snapA); reflexivity.
Defined.

(** A [registerSnapExtension] for another id leaves the caller parked. *)
Example other_extension_leaves_waiter_parked :
  0%nat ∈ w_parked (runs [WaitSnapExtension peerA; Close; RegisterSnapExtension snapC;
                          RegisterPeer peerB None] newWorld).
Proof. vm_compute. reflexivity. Qed.

End WaiterFacts.

(** ** Setting up and running the full node service *)

Module NodeFacts.
Import Backend Node BackendFacts.

Lemma reallocateCaches_idle config :
  NoPruning config = false \/ TrieDirtyCache config <= 0 ->
  reallocateCaches config = config.
Proof.
  intros Hcase. unfold reallocateCaches.
  destruct Hcase as [-> | Hd]; [done |].
  destruct (Z.ltb_spec 0 (TrieDirtyCache config)); [lia |].
  by rewrite andb_false_r.
Qed.

(** X9. With pruning disabled and a positive dirty cache allowance, [New]
    moves that allowance to the clean cache and, when snapshots are on, to the
    snapshot cache: afterwards the dirty allowance is zero, neither of the
    other two has shrunk, and their sum is the old total or one megabyte less
    (the two integer divisions by five may drop one). Snapshots are neither
    switched on nor off by this, so [Protocols] announces the same families.
    In every other case the allowances are left alone, and applying the step
    twice is the same as applying it once. *)
Theorem reallocateCaches_conserves config :
  (NoPruning config = true -> 0 < TrieDirtyCache config ->
   0 <= TrieCleanCache config -> 0 <= SnapshotCache config ->
   TrieCleanCache config + SnapshotCache config + 3 * TrieDirtyCache config <= maxInt ->
   let total := TrieCleanCache config + TrieDirtyCache config + SnapshotCache config in
   let config' := reallocateCaches config in
   TrieDirtyCache config' = 0 /\
   TrieCleanCache config <= TrieCleanCache config' /\
   SnapshotCache config <= SnapshotCache config' /\
   total - 1 <= TrieCleanCache config' + SnapshotCache config' <= total /\
   Protocols (SnapshotCache config') = Protocols (SnapshotCache config)) /\
  (NoPruning config = false \/ TrieDirtyCache config <= 0 ->
   reallocateCaches config = config) /\
  reallocateCaches (reallocateCaches config) = reallocateCaches config.
Proof.
  split; [| split].
  - intros Hnp Hd Hc Hs Hb total config'. subst total config'.
    unfold reallocateCaches, Protocols. rewrite Hnp.
    destruct (Z.ltb_spec 0 (TrieDirtyCache config)) as [_ | ?]; [| lia].
    cbn [andb].
    destruct (Z.ltb_spec 0 (SnapshotCache config)) as [Hsnap | Hsnap]; cbn.
    + rewrite (wrapInt_small (TrieDirtyCache config * 3))
        by (unfold minInt, maxInt in *; lia).
      rewrite (wrapInt_small (TrieDirtyCache config * 2))
        by (unfold minInt, maxInt in *; lia).
      rewrite !Z.quot_div_nonneg by lia.
      pose proof (Z.div_mod (TrieDirtyCache config * 3) 5 ltac:(lia)) as H3.
      pose proof (Z.mod_pos_bound (TrieDirtyCache config * 3) 5 ltac:(lia)) as B3.
      pose proof (Z.div_mod (TrieDirtyCache config * 2) 5 ltac:(lia)) as H2.
      pose proof (Z.mod_pos_bound (TrieDirtyCache config * 2) 5 ltac:(lia)) as B2.
      rewrite !wrapInt_small by (unfold minInt, maxInt in *; lia).
      destruct (Z.ltb_spec 0 (SnapshotCache config +
                              (TrieDirtyCache config * 2) `div` 5)); [| lia].
      repeat split; lia.
    + rewrite wrapInt_small by (unfold minInt, maxInt in *; lia).
      destruct (Z.ltb_spec 0 (SnapshotCache config)); [lia |].
      repeat split; lia.
  - apply reallocateCaches_idle.
  - destruct (NoPruning config && (0 <? TrieDirtyCache config)) eqn:Hgo.
    + apply reallocateCaches_idle. right.
      unfold reallocateCaches. rewrite Hgo.
      destruct (0 <? SnapshotCache config); cbn; lia.
    + assert (Hsame : reallocateCaches config = config)
        by (unfold reallocateCaches; by rewrite Hgo).
      by rewrite !Hsame.
Qed.

Lemma reallocateCaches_conserves_witness :
  TrieCleanCache (reallocateCaches defaultCaches) = 307 /\
  TrieDirtyCache (reallocateCaches defaultCaches) = 0 /\
  SnapshotCache (reallocateCaches defaultCaches) = 204 /\
  154 + 256 + 102 - 1 <= TrieCleanCache (reallocateCaches defaultCaches)
                         + SnapshotCache (reallocateCaches defaultCaches)
                      <= 154 + 256 + 102.
Proof.
  split; [reflexivity |]. split; [reflexivity |]. split; [reflexivity |].
  destruct (reallocateCaches_conserves defaultCaches) as [Hmove _].
  apply Hmove; vm_compute; congruence.
Defined.

(** Open up conjunctions, witnesses and equations between constructors. *)
Ltac inj_facts :=
  repeat (subst;
          match goal with
          | H : _ /\ _ |- _ => destruct H
          | H : exists _, _ |- _ => destruct H
          | H : inl _ = inl _ |- _ => injection H as H
          | H : Some _ = Some _ |- _ => injection H as H
          end);
  subst.

(** X10. The database version check of [New]. It fails exactly when the check
    is not skipped and the stored version is newer than the supported one.
    When it is not skipped and succeeds, the database ends up at exactly the
    supported version; when it is skipped, the stored version is left as it
    is. The stored version never decreases. *)
Theorem checkDatabaseVersion_outcome skip current bcVersion :
  (checkDatabaseVersion skip current bcVersion = inr errDatabaseVersion <->
     skip = false /\ exists v, bcVersion = Some v /\ current < v) /\
  (skip = false -> forall stored,
     checkDatabaseVersion skip current bcVersion = inl stored -> stored = Some current) /\
  (skip = true -> checkDatabaseVersion skip current bcVersion = inl bcVersion) /\
  (forall v v', bcVersion = Some v ->
     checkDatabaseVersion skip current bcVersion = inl (Some v') -> v <= v').
Proof.
  unfold checkDatabaseVersion.
  destruct skip; cbn [negb];
    [| destruct bcVersion as [v|];
       [destruct (Z.ltb_spec current v);
          [| destruct (Z.ltb_spec v current)] |]];
    repeat split; intros; inj_facts; try done; try lia; try (f_equal; lia); eauto.
Qed.

Lemma checkDatabaseVersion_outcome_witness :
  checkDatabaseVersion true 8 (Some 9) = inl (Some 9) /\
  checkDatabaseVersion false 8 (Some 9) = inr errDatabaseVersion.
Proof.
  split.
  - apply (checkDatabaseVersion_outcome true 8 (Some 9)). reflexivity.
  - apply (checkDatabaseVersion_outcome false 8 (Some 9)).
    split; [reflexivity |]. exists 9. split; [reflexivity | lia].
Defined.

(** X11. The extra data that [New] hands to the miner always fits: whatever
    the configured bytes and the default encoding are, [makeExtraData]
    returns at most [MaximumExtraDataSize] bytes, so [SetExtra] accepts its
    result. Configured bytes that are not empty and fit are returned
    unchanged; bytes that are too long are dropped altogether, neither cut to
    size nor replaced by the default. *)
Theorem makeExtraData_fits defaultExtra maxSize extra :
  0 <= maxSize ->
  Z.of_nat (length (makeExtraData defaultExtra maxSize extra)) <= maxSize /\
  SetExtra maxSize (makeExtraData defaultExtra maxSize extra)
  = inl (makeExtraData defaultExtra maxSize extra) /\
  (extra <> [] -> Z.of_nat (length extra) <= maxSize ->
     makeExtraData defaultExtra maxSize extra = extra) /\
  (maxSize < Z.of_nat (length extra) -> makeExtraData defaultExtra maxSize extra = []).
Proof.
  intros Hmax.
  assert (Hfit : Z.of_nat (length (makeExtraData defaultExtra maxSize extra)) <= maxSize).
  { unfold makeExtraData.
    destruct (length extra =? 0)%nat;
      match goal with |- context [?a <? ?b] => destruct (Z.ltb_spec a b) end;
      cbn [length]; lia. }
  split; [exact Hfit |]. split; [| split].
  - unfold SetExtra.
    apply Z.ltb_ge in Hfit. by rewrite Hfit.
  - intros Hne Hlen. unfold makeExtraData.
    destruct extra as [|b extra]; [done |]. cbn [length Nat.eqb].
    apply Z.ltb_ge in Hlen. cbn [length] in Hlen. by rewrite Hlen.
  - intros Hlong. unfold makeExtraData.
    destruct extra as [|b extra]; [cbn in Hlong; lia |]. cbn [length Nat.eqb].
    apply Z.ltb_lt in Hlong. cbn [length] in Hlong. by rewrite Hlong.
Qed.

Lemma makeExtraData_fits_witness :
  SetExtra 2 (makeExtraData [Byte.x00; Byte.x01; Byte.x02] 2 [])
  = inl (makeExtraData [Byte.x00; Byte.x01; Byte.x02] 2 []).
Proof.
  apply (makeExtraData_fits [Byte.x00; Byte.x01; Byte.x02] 2 []). lia.
Defined.

(** *** The ongerbase *)

Lemma Orangerbase_cases wallets s :
  (ongerbase s <> 0%N /\ Orangerbase wallets s = (s, inl (ongerbase s))) \/
  (ongerbase s = 0%N /\
   exists account rest others, wallets = (account :: rest) :: others /\
     Orangerbase wallets s
     = ({| engine := engine s; ongerbase := account; TxPool_Locals := TxPool_Locals s |},
        inl account)) \/
  (ongerbase s = 0%N /\ (wallets = [] \/ exists others, wallets = [] :: others) /\
   Orangerbase wallets s = (s, inr errOngerbaseMissing)).
Proof.
  unfold Orangerbase. destruct (N.eqb_spec (ongerbase s) 0) as [Hz | Hnz]; cbn [negb].
  - right. destruct wallets as [|[|account rest] others].
    + right. eauto.
    + right. eauto.
    + left. split; [done |]. by exists account, rest, others.
  - left. done.
Qed.

Lemma Orangerbase_stored wallets s eb :
  (Orangerbase wallets s).2 = inl eb -> ongerbase (Orangerbase wallets s).1 = eb.
Proof.
  destruct (Orangerbase_cases wallets s)
    as [[_ ->] | [(_ & account & rest & others & _ & ->) | (_ & _ & ->)]];
    cbn; congruence.
Qed.

(** X12. [Orangerbase] fails exactly when no ongerbase is configured and the
    first wallet is missing or has no account (later wallets are not looked
    at); a failure changes nothing. On success the node's ongerbase is the
    returned address, engine and local accounts are untouched, asking again
    gives the same answer without further change, and every block whose
    author is that address is a local block from then on. *)
Theorem Orangerbase_outcome wallets s :
  ((Orangerbase wallets s).2 = inr errOngerbaseMissing <->
     ongerbase s = 0%N /\ (wallets = [] \/ exists others, wallets = [] :: others)) /\
  (forall err, (Orangerbase wallets s).2 = inr err -> (Orangerbase wallets s).1 = s) /\
  (forall eb, (Orangerbase wallets s).2 = inl eb ->
     ongerbase (Orangerbase wallets s).1 = eb /\
     engine (Orangerbase wallets s).1 = engine s /\
     TxPool_Locals (Orangerbase wallets s).1 = TxPool_Locals s /\
     Orangerbase wallets (Orangerbase wallets s).1 = ((Orangerbase wallets s).1, inl eb) /\
     forall block, Author (engine s) (header block) = inl eb ->
                   isLocalBlock (Orangerbase wallets s).1 block = true).
Proof.
  destruct (Orangerbase_cases wallets s)
    as [[Hnz ->] | [(Hz & account & rest & others & -> & ->) | (Hz & Hw & ->)]];
    cbn [fst snd].
  - split; [split; [done | intros [? _]; done] |]. split; [done |].
    intros eb [= <-]. split; [done |]. split; [done |]. split; [done |]. split.
    + unfold Orangerbase. by destruct (N.eqb_spec (ongerbase s) 0).
    + intros block Hauthor. apply isLocalBlock_true. eauto.
  - split.
    { split; [done |]. intros [_ [? | [? ?]]]; done. }
    split; [done |].
    intros eb [= <-]. split; [done |]. split; [done |]. split; [done |]. split.
    + unfold Orangerbase. cbn.
      by destruct (N.eqb_spec account 0) as [-> |].
    + intros block Hauthor. apply isLocalBlock_true. cbn. eauto.
  - split; [done |]. split; done.
Qed.

Lemma Orangerbase_outcome_witness :
  (Orangerbase [[]; [9%N]] (mkOrange powEngine 0%N [])).2 = inr errOngerbaseMissing /\
  isLocalBlock (Orangerbase [[9%N; 8%N]] (mkOrange powEngine 0%N [])).1 (blockBy 9%N) = true.
Proof.
  split.
  - apply (Orangerbase_outcome [[]; [9%N]] (mkOrange powEngine 0%N [])).
    split; [reflexivity | right; eexists; reflexivity].
  - destruct (Orangerbase_outcome [[9%N; 8%N]] (mkOrange powEngine 0%N []))
      as (_ & _ & Hok).
    apply (Hok 9%N); reflexivity.
Defined.

(** C8. On a proof-of-work node without a configured ongerbase and without
    local accounts there is no local identity: [Orangerbase] reports that
    none is configured. Still [isLocalBlock] compares the author with the
    empty field, so a block whose author is the zero address counts as a
    local block and [shouldPreserve] answers true for it. *)
Theorem shouldPreserve_unset_ongerbase :
  engineKind (engine unsetNode) = Ongash /\
  ongerbase unsetNode = 0%N /\
  TxPool_Locals unsetNode = [] /\
  (Orangerbase [] unsetNode).2 = inr errOngerbaseMissing /\
  Author (engine unsetNode) (header (blockBy 0%N)) = inl 0%N /\
  isLocalBlock unsetNode (blockBy 0%N) = true /\
  shouldPreserve unsetNode (blockBy 0%N) = true.
Proof. repeat split; reflexivity. Qed.

(** X13. [Start] refuses to run exactly when light clients are served and the
    light peer count reaches the total peer count. Otherwise, when light
    clients are served (with a light peer count that is not negative), the
    handler is started with the remaining slots, at least one and at most the
    total; when they are not served, the light peer count is ignored and the
    handler gets the total. *)
Theorem Start_peer_limit LightServ LightPeers MaxPeers :
  minInt <= MaxPeers <= maxInt ->
  (Start LightServ LightPeers MaxPeers = inr errInvalidPeerConfig <->
     0 < LightServ /\ MaxPeers <= LightPeers) /\
  (0 < LightServ -> 0 <= LightPeers < MaxPeers ->
     exists maxPeers, Start LightServ LightPeers MaxPeers = inl maxPeers /\
                      maxPeers = MaxPeers - LightPeers /\ 1 <= maxPeers <= MaxPeers) /\
  (LightServ <= 0 -> Start LightServ LightPeers MaxPeers = inl MaxPeers).
Proof.
  intros Hrange. unfold Start.
  destruct (Z.ltb_spec 0 LightServ) as [Hserv | Hserv];
    [destruct (Z.leb_spec MaxPeers LightPeers) as [Hfull | Hroom] |].
  - split; [done |]. split; [lia | lia].
  - split; [split; [done | lia] |]. split; [| lia].
    intros _ Hlight. exists (MaxPeers - LightPeers).
    rewrite wrapInt_small by (unfold minInt, maxInt in *; lia).
    split; [done |]. lia.
  - split; [split; [done | lia] |]. split; [lia | done].
Qed.

Lemma Start_peer_limit_witness :
  Start 1 100 50 = inr errInvalidPeerConfig /\
  exists maxPeers, Start 1 10 50 = inl maxPeers /\
                   maxPeers = 50 - 10 /\ 1 <= maxPeers <= 50.
Proof.
  assert (Hrange : minInt <= 50 <= maxInt) by (vm_compute; split; discriminate).
  split.
  - apply (Start_peer_limit 1 100 50 Hrange). lia.
  - apply (Start_peer_limit 1 10 50 Hrange); lia.
Defined.

(** *** Starting the miner *)

Lemma StartMining_running threads n :
  mn_mining n = true ->
  StartMining threads n = mkMiningResult n (threadCalls threads n) None.
Proof. intros Hm. unfold StartMining. by rewrite Hm. Qed.

Lemma StartMining_idle threads n :
  mn_mining n = false ->
  let pre := threadCalls threads n ++ [SetGasPrice (mn_gasPrice n)] in
  ((Orangerbase (mn_wallets n) (mn_node n)) = (mn_node n, inr errOngerbaseMissing) /\
   StartMining threads n = mkMiningResult n pre (Some errOngerbaseMissing)) \/
  (exists eb,
     (Orangerbase (mn_wallets n) (mn_node n)).2 = inl eb /\
     engineKind (engine (mn_node n)) = Clique /\ mn_find n eb = false /\
     StartMining threads n
     = mkMiningResult (with_node (Orangerbase (mn_wallets n) (mn_node n)).1 n) pre
                      (Some errSignerMissing)) \/
  (exists eb,
     (Orangerbase (mn_wallets n) (mn_node n)).2 = inl eb /\
     engineKind (engine (mn_node n)) = Clique /\ mn_find n eb = true /\
     StartMining threads n
     = mkMiningResult
         (with_acceptTxs 1 (with_node (Orangerbase (mn_wallets n) (mn_node n)).1 n))
         (pre ++ [Authorize eb; MinerStart eb]) None) \/
  (exists eb,
     (Orangerbase (mn_wallets n) (mn_node n)).2 = inl eb /\
     engineKind (engine (mn_node n)) = Ongash /\
     StartMining threads n
     = mkMiningResult
         (with_acceptTxs 1 (with_node (Orangerbase (mn_wallets n) (mn_node n)).1 n))
         (pre ++ [MinerStart eb]) None).
Proof.
  intros Hm pre. unfold StartMining. rewrite Hm. cbn [negb]. fold (threadCalls threads n).
  fold pre.
  destruct (Orangerbase_cases (mn_wallets n) (mn_node n))
    as [[_ E] | [(_ & account & rest & others & _ & E) | (_ & _ & E)]];
    rewrite E; cbn [fst snd engine mn_find with_node].
  - destruct (engineKind (engine (mn_node n))) eqn:Hkind.
    + destruct (mn_find n (ongerbase (mn_node n))) eqn:Hfind; cbn [negb].
      * right. right. left. by exists (ongerbase (mn_node n)).
      * right. left. by exists (ongerbase (mn_node n)).
    + right. right. right. by exists (ongerbase (mn_node n)).
  - destruct (engineKind (engine (mn_node n))) eqn:Hkind.
    + destruct (mn_find n account) eqn:Hfind; cbn [negb].
      * right. right. left. by exists account.
      * right. left. by exists account.
    + right. right. right. by exists account.
  - left. split; [done |]. by destruct n.
Qed.

(** X14. [StartMining]. The engine is never asked for zero threads: a request
    for zero is passed on as -1. When the miner already runs, nothing but the
    thread count is touched and the call succeeds. When it does not run, the
    call fails exactly when no ongerbase can be found, or when the engine is
    clique and the account manager has no wallet for the ongerbase; a failed
    call starts no miner, authorizes no signer and leaves the transaction
    acceptance flag as it was. A successful call sets that flag, so the node
    reports itself synced, and starts the miner on the ongerbase, after
    authorizing it as signer under clique. *)
Theorem StartMining_outcome threads n :
  (forall t, SetThreads t ∈ mr_calls (StartMining threads n) ->
             t <> 0 /\ mn_threaded n = true /\ (threads <> 0 -> t = threads)) /\
  (mn_mining n = true ->
     mr_err (StartMining threads n) = None /\ mr_node (StartMining threads n) = n /\
     forall c, c ∈ mr_calls (StartMining threads n) -> exists t, c = SetThreads t) /\
  (mn_mining n = false ->
     (mr_err (StartMining threads n) = Some errOngerbaseMissing <->
        (Orangerbase (mn_wallets n) (mn_node n)).2 = inr errOngerbaseMissing) /\
     (mr_err (StartMining threads n) = Some errSignerMissing <->
        exists eb, (Orangerbase (mn_wallets n) (mn_node n)).2 = inl eb /\
                   engineKind (engine (mn_node n)) = Clique /\ mn_find n eb = false)) /\
  (mr_err (StartMining threads n) <> None ->
     mn_acceptTxs (mr_node (StartMining threads n)) = mn_acceptTxs n /\
     forall c, c ∈ mr_calls (StartMining threads n) ->
               (exists t, c = SetThreads t) \/ c = SetGasPrice (mn_gasPrice n)) /\
  (mn_mining n = false -> mr_err (StartMining threads n) = None ->
     Synced (mr_node (StartMining threads n)) = true /\
     exists eb calls,
       (Orangerbase (mn_wallets n) (mn_node n)).2 = inl eb /\
       ongerbase (mn_node (mr_node (StartMining threads n))) = eb /\
       mr_calls (StartMining threads n) = calls ++ [MinerStart eb] /\
       (engineKind (engine (mn_node n)) = Clique ->
          exists calls', calls = calls' ++ [Authorize eb])).
Proof.
  assert (Hpre : forall c, c ∈ threadCalls threads n -> exists t, c = SetThreads t).
  { intros c. unfold threadCalls. destruct (mn_threaded n); [| by intros ?%not_elem_of_nil].
    intros ->%list_elem_of_singleton. eauto. }
  assert (Hthreads : forall t, SetThreads t ∈ threadCalls threads n ->
            t <> 0 /\ mn_threaded n = true /\ (threads <> 0 -> t = threads)).
  { intros t. unfold threadCalls.
    destruct (mn_threaded n); [| by intros ?%not_elem_of_nil].
    intros [= ->]%list_elem_of_singleton.
    destruct (Z.eqb_spec threads 0); split; try done; lia. }
  destruct (mn_mining n) eqn:Hm.
  - rewrite (StartMining_running threads n Hm). cbn [mr_calls mr_err mr_node].
    split; [exact Hthreads |]. split; [done |]. split; [done |]. split; done.
  - destruct (StartMining_idle threads n Hm)
      as [(Hbase & ->) |
          [(eb & Hbase & Hkind & Hfind & ->) |
           [(eb & Hbase & Hkind & Hfind & ->) | (eb & Hbase & Hkind & ->)]]];
      cbn [mr_calls mr_err mr_node]; rewrite Hbase; cbn [fst snd].
    + split.
      { intros t [Ht | Ht%list_elem_of_singleton]%elem_of_app; [by apply Hthreads | done]. }
      split; [done |]. split.
      { intros _. split; [done |]. split; [done | intros (eb & ? & _); done]. }
      split; [| done]. intros _. split; [done |].
      intros c [Hc | Hc%list_elem_of_singleton]%elem_of_app; [left; by apply Hpre | by right].
    + split.
      { intros t [Ht | Ht%list_elem_of_singleton]%elem_of_app; [by apply Hthreads | done]. }
      split; [done |]. split.
      { intros _. split; [done |]. split; [intros _; eauto | done]. }
      split; [| done]. intros _. split; [done |].
      intros c [Hc | Hc%list_elem_of_singleton]%elem_of_app; [left; by apply Hpre | by right].
    + split.
      { intros t [[Ht | Ht%list_elem_of_singleton]%elem_of_app | Ht]%elem_of_app;
          [by apply Hthreads | done |].
        apply elem_of_cons in Ht as [Ht | Ht%list_elem_of_singleton]; done. }
      split; [done |]. split.
      { intros _. split; [done |].
        split; [done | intros (eb' & [= <-] & _ & ?); congruence]. }
      split; [intros Hne; by destruct Hne |]. intros _ _. split; [reflexivity |].
      exists eb, ((threadCalls threads n ++ [SetGasPrice (mn_gasPrice n)]) ++ [Authorize eb]).
      split; [done |]. split; [by apply Orangerbase_stored |].
      split; [by rewrite <- !app_assoc |].
      intros _. eexists. reflexivity.
    + split.
      { intros t [[Ht | Ht%list_elem_of_singleton]%elem_of_app
                 | Ht%list_elem_of_singleton]%elem_of_app;
          [by apply Hthreads | done | done]. }
      split; [done |]. split.
      { intros _. split; [done |].
        split; [done | intros (eb' & _ & ? & _); congruence]. }
      split; [intros Hne; by destruct Hne |]. intros _ _. split; [reflexivity |].
      exists eb, (threadCalls threads n ++ [SetGasPrice (mn_gasPrice n)]).
      split; [done |]. split; [by apply Orangerbase_stored |]. split; [done |].
      intros ?. congruence.
Qed.

Lemma StartMining_outcome_witness :
  Synced (mr_node (StartMining 0 idlePowMiner)) = true /\
  mn_acceptTxs (mr_node (StartMining 4 idlePoaMiner)) = 0.
Proof.
  destruct (StartMining_outcome 0 idlePowMiner) as (_ & _ & _ & _ & Hok).
  destruct (StartMining_outcome 4 idlePoaMiner) as (_ & _ & _ & Hfail & _).
  split.
  - apply Hok; reflexivity.
  - apply Hfail. vm_compute. discriminate.
Defined.

Example StartMining_zero_threads :
  mr_calls (StartMining 0 idlePowMiner)
  = [SetThreads (-1); SetGasPrice 1000000000; MinerStart 9%N].
Proof. reflexivity. Qed.

Example StartMining_signer_missing :
  mr_err (StartMining 4 idlePoaMiner) = Some errSignerMissing /\
  mr_calls (StartMining 4 idlePoaMiner) = [SetGasPrice 1000000000].
Proof. split; reflexivity. Qed.

End NodeFacts.

(** ** The miner's update loop *)

Module MinerFacts.
Import Backend Miner.

Lemma loop_steps_app ms1 ms2 l :
  steps (ms1 ++ ms2) l
  = ((steps ms2 (steps ms1 l).1).1, (steps ms1 l).2 ++ (steps ms2 (steps ms1 l).1).2).
Proof.
  revert l. induction ms1 as [|m ms1 IH]; intros l; cbn [steps app fst snd].
  - by destruct (steps ms2 l).
  - destruct (step m l) as [l1 calls1]. rewrite IH.
    destruct (steps ms1 l1) as [l2 calls2]. cbn [fst snd].
    by rewrite app_assoc.
Qed.

Lemma loop_steps_cons m ms l :
  steps (m :: ms) l
  = ((steps ms (step m l).1).1, (step m l).2 ++ (steps ms (step m l).1).2).
Proof.
  cbn [steps]. destruct (step m l) as [l1 calls1]. cbn [fst snd].
  by destruct (steps ms l1).
Qed.

Lemma step_paused m l :
  canStart l = false -> endsSync m = false ->
  canStart (step m l).1 = false /\ WorkerStart ∉ (step m l).2.
Proof.
  intros Hcan Hm. unfold step.
  destruct (exited l); [split; [done | apply not_elem_of_nil] |].
  destruct m as [[wasMining| |]| |addr| |]; try discriminate;
    destruct (dlEventCh l); cbn; rewrite ?Hcan;
    (split; [done |]);
    rewrite ?elem_of_cons, ?elem_of_nil; intros Hin;
    repeat destruct Hin as [Hin | Hin]; done.
Qed.

Lemma steps_paused ms l :
  canStart l = false -> forallb (fun m => negb (endsSync m)) ms = true ->
  canStart (steps ms l).1 = false /\ WorkerStart ∉ (steps ms l).2.
Proof.
  revert l. induction ms as [|m ms IH]; intros l Hcan Hms.
  - split; [done | apply not_elem_of_nil].
  - cbn [forallb] in Hms. apply andb_prop in Hms as [Hm Hms].
    apply negb_true_iff in Hm.
    destruct (step_paused m l Hcan Hm) as [Hcan1 Hno1].
    destruct (IH (step m l).1 Hcan1 Hms) as [Hcan2 Hno2].
    rewrite loop_steps_cons. cbn [fst snd]. split; [done |].
    intros [? | ?]%elem_of_app; done.
Qed.

Lemma step_StartEvent l wasMining :
  dlEventCh l = Listening -> exited l = false ->
  step (DlEvent (StartEvent wasMining)) l
  = ({| coinbase := coinbase l; shouldStart := wasMining || shouldStart l;
        canStart := false; dlEventCh := Listening; exited := false |},
     [WorkerStop]).
Proof.
  intros Hdl Hex. unfold step. rewrite Hex, Hdl. cbn. rewrite Hex, Hdl.
  by destruct wasMining.
Qed.

(** X15. A sync pauses mining. When the loop handles a [StartEvent] of the
    downloader, it stops the worker first, and from then on it does not start
    the worker again before a [FailedEvent] or [DoneEvent] arrives, whatever
    start and stop requests come in meanwhile. *)
Theorem sync_pauses_mining l wasMining ms :
  dlEventCh l = Listening -> exited l = false ->
  forallb (fun m => negb (endsSync m)) ms = true ->
  (exists calls, (steps (DlEvent (StartEvent wasMining) :: ms) l).2 = WorkerStop :: calls /\
                 WorkerStart ∉ calls) /\
  canStart (steps (DlEvent (StartEvent wasMining) :: ms) l).1 = false.
Proof.
  intros Hdl Hex Hms. rewrite loop_steps_cons.
  rewrite (step_StartEvent l wasMining Hdl Hex). cbn [fst snd].
  match goal with |- context [steps ms ?l1] =>
    destruct (steps_paused ms l1 eq_refl Hms) as [Hcan Hno] end.
  split; [| exact Hcan]. eexists. split; [reflexivity | exact Hno].
Qed.

Lemma sync_pauses_mining_witness :
  canStart (steps [DlEvent (StartEvent true); StartReq 7%N; StopReq; StartReq 8%N]
                  newLoop).1 = false.
Proof.
  apply (sync_pauses_mining newLoop true [StartReq 7%N; StopReq; StartReq 8%N]);
    reflexivity.
Defined.

Lemma step_sameControl m l1 l2 :
  sameControl l1 l2 ->
  sameControl (step m l1).1 (step m l2).1 /\ (step m l1).2 = (step m l2).2.
Proof.
  intros (Hcb & Hss & Hcs & Hex & Hd1 & Hd2). unfold step, sameControl. rewrite Hex.
  destruct (exited l2) eqn:Hex2; [cbn; repeat split; congruence |].
  destruct m as [ev| |addr| |]; cbn [fst snd];
    destruct (dlEventCh l1) eqn:E1, (dlEventCh l2) eqn:E2; try done; cbn;
    rewrite ?Hcb, ?Hss, ?Hcs; repeat split; congruence.
Qed.

Lemma step_downloader_ignored m l :
  dlEventCh l <> Listening -> fromDownloader m = true ->
  sameControl (step m l).1 l /\ (step m l).2 = [].
Proof.
  intros Hdl Hm. unfold step, sameControl.
  destruct (exited l) eqn:Hex; [cbn; repeat split; congruence |].
  destruct m as [ev| |addr| |]; try discriminate;
    destruct (dlEventCh l) eqn:Hch; try done; cbn; rewrite ?Hch;
    repeat split; congruence.
Qed.

Lemma steps_deaf ms l1 l2 :
  sameControl l1 l2 ->
  sameControl (steps ms l1).1
              (steps (List.filter (fun m => negb (fromDownloader m)) ms) l2).1 /\
  (steps ms l1).2 = (steps (List.filter (fun m => negb (fromDownloader m)) ms) l2).2.
Proof.
  revert l1 l2. induction ms as [|m ms IH]; intros l1 l2 Hsame; [done |].
  cbn [List.filter]. destruct (fromDownloader m) eqn:Hm; cbn [negb].
  - destruct (step_downloader_ignored m l1) as [Hsame1 Hcalls1];
      [by destruct Hsame as (_ & _ & _ & _ & ? & _) | done |].
    assert (Hsame2 : sameControl (step m l1).1 l2).
    { destruct Hsame1 as (? & ? & ? & ? & ? & _), Hsame as (? & ? & ? & ? & _ & ?).
      repeat split; congruence. }
    destruct (IH _ _ Hsame2) as [Hs Hc].
    rewrite loop_steps_cons. cbn [fst snd]. by rewrite Hcalls1.
  - destruct (step_sameControl m l1 l2 Hsame) as [Hsame1 Hcalls1].
    destruct (IH _ _ Hsame1) as [Hs Hc].
    rewrite !loop_steps_cons. cbn [fst snd]. by rewrite Hcalls1, Hc.
Qed.

(** X16. A [DoneEvent] ends the loop's interest in the downloader. Once the
    loop has handled a [DoneEvent] it has unsubscribed: every later downloader
    event is ignored, so the calls it makes on the worker, the address and the
    wish to mine are what they would be had those events never been sent; in
    particular a later [StartEvent] does not stop the worker. A [FailedEvent]
    does not have this effect: the loop keeps listening, and a [StartEvent]
    that follows it stops the worker again. *)
Theorem done_event_is_final l ms :
  dlEventCh l = Listening -> exited l = false ->
  (steps ms (step (DlEvent DoneEvent) l).1).2
  = (steps (List.filter (fun m => negb (fromDownloader m)) ms)
           (step (DlEvent DoneEvent) l).1).2 /\
  sameControl (steps ms (step (DlEvent DoneEvent) l).1).1
              (steps (List.filter (fun m => negb (fromDownloader m)) ms)
                     (step (DlEvent DoneEvent) l).1).1 /\
  (forall wasMining,
     step (DlEvent (StartEvent wasMining)) (step (DlEvent DoneEvent) l).1
     = ((step (DlEvent DoneEvent) l).1, [])) /\
  dlEventCh (step (DlEvent FailedEvent) l).1 = Listening /\
  (forall wasMining,
     (step (DlEvent (StartEvent wasMining)) (step (DlEvent FailedEvent) l).1).2
     = [WorkerStop] /\
     canStart (step (DlEvent (StartEvent wasMining)) (step (DlEvent FailedEvent) l).1).1
     = false).
Proof.
  intros Hdl Hex.
  assert (Hsame : sameControl (step (DlEvent DoneEvent) l).1 (step (DlEvent DoneEvent) l).1).
  { unfold step. rewrite Hex, Hdl. cbn. repeat split; done. }
  destruct (steps_deaf ms _ _ Hsame) as [Hs Hc].
  split; [exact Hc |]. split; [exact Hs |].
  split; [intros wasMining; unfold step; rewrite Hex, Hdl; cbn; by rewrite Hex |].
  assert (Hfail : (step (DlEvent FailedEvent) l).1
                  = {| coinbase := coinbase l; shouldStart := shouldStart l;
                       canStart := true; dlEventCh := Listening; exited := false |}).
  { unfold step. rewrite Hex, Hdl. cbn. by rewrite Hex, Hdl. }
  rewrite Hfail. split; [done |].
  intros wasMining. by rewrite step_StartEvent.
Qed.

Lemma done_event_is_final_witness :
  (steps [DlEvent (StartEvent true); StartReq 7%N] (step (DlEvent DoneEvent) newLoop).1).2
  = (steps [StartReq 7%N] (step (DlEvent DoneEvent) newLoop).1).2.
Proof.
  apply (done_event_is_final newLoop [DlEvent (StartEvent true); StartReq 7%N]);
    reflexivity.
Defined.

Lemma step_StartReq l addr :
  exited l = false ->
  step (StartReq addr) l
  = ({| coinbase := addr; shouldStart := true; canStart := canStart l;
        dlEventCh := dlEventCh l; exited := false |},
     WorkerSetOrangerbase addr :: (if canStart l then [WorkerStart] else [])).
Proof. intros Hex. unfold step. by rewrite Hex. Qed.

Lemma step_StopReq l :
  exited l = false ->
  step StopReq l
  = ({| coinbase := coinbase l; shouldStart := false; canStart := canStart l;
        dlEventCh := dlEventCh l; exited := false |},
     [WorkerStop]).
Proof. intros Hex. unfold step. by rewrite Hex. Qed.

Lemma steps_requests ms l :
  canStart l = false -> exited l = false ->
  forallb isRequest ms = true ->
  (steps ms l).1
  = {| coinbase := (wantAfter ms (shouldStart l) (coinbase l)).2;
       shouldStart := (wantAfter ms (shouldStart l) (coinbase l)).1;
       canStart := false; dlEventCh := dlEventCh l; exited := false |} /\
  WorkerStart ∉ (steps ms l).2.
Proof.
  revert l. induction ms as [|m ms IH]; intros l Hcan Hex Hms.
  - cbn. split; [by destruct l; cbn in *; subst | apply not_elem_of_nil].
  - cbn [forallb] in Hms. apply andb_prop in Hms as [Hm Hms].
    rewrite loop_steps_cons.
    destruct m as [ev| |addr| |]; try discriminate.
    + rewrite (step_StartReq l addr Hex), Hcan. cbn [fst snd wantAfter].
      match goal with |- context [steps ms ?l1] =>
        destruct (IH l1 eq_refl eq_refl Hms) as [-> Hno] end.
      cbn. split; [done |].
      intros [Hin | Hin]%elem_of_cons; done.
    + rewrite (step_StopReq l Hex), Hcan. cbn [fst snd wantAfter].
      match goal with |- context [steps ms ?l1] =>
        destruct (IH l1 eq_refl eq_refl Hms) as [-> Hno] end.
      cbn. split; [done |].
      intros [Hin | Hin]%elem_of_cons; done.
Qed.

(** X17. Mining resumes at the end of a sync exactly when it is wanted then.
    If a sync starts and only start and stop requests arrive until the
    downloader reports [FailedEvent] or [DoneEvent], the worker is stopped at
    the start, not started in between, and at the end it is started, on the
    address of the latest start request, exactly when the latest request was
    a start or, without any request, when the worker was running or wanted
    before the sync. *)
Theorem mining_resumes_after_sync l wasMining ms ev :
  dlEventCh l = Listening -> exited l = false ->
  forallb isRequest ms = true ->
  ev = FailedEvent \/ ev = DoneEvent ->
  exists calls,
    (steps (DlEvent (StartEvent wasMining) :: ms ++ [DlEvent ev]) l).2
    = WorkerStop :: calls
      ++ (if (wantAfter ms (wasMining || shouldStart l) (coinbase l)).1
          then [WorkerSetOrangerbase (wantAfter ms (wasMining || shouldStart l) (coinbase l)).2;
                WorkerStart]
          else []) /\
    (WorkerStart ∉ calls) /\
    canStart (steps (DlEvent (StartEvent wasMining) :: ms ++ [DlEvent ev]) l).1 = true.
Proof.
  intros Hdl Hex Hms Hev. rewrite loop_steps_cons, loop_steps_app.
  rewrite (step_StartEvent l wasMining Hdl Hex). cbn [fst snd].
  match goal with |- context [steps ms ?l1] =>
    destruct (steps_requests ms l1 eq_refl eq_refl Hms) as [Hstate Hno];
    set (l0 := l1) in * end.
  cbn [shouldStart coinbase dlEventCh] in Hstate.
  rewrite Hstate.
  exists (steps ms l0).2.
  destruct Hev as [-> | ->]; cbn; unfold restart; cbn;
    rewrite app_nil_r; (split; [done |]); (split; [exact Hno | done]).
Qed.

Lemma mining_resumes_after_sync_witness :
  exists calls,
    (steps (DlEvent (StartEvent false) :: [StartReq 7%N; StopReq; StartReq 8%N]
            ++ [DlEvent FailedEvent]) newLoop).2
    = WorkerStop :: calls ++ [WorkerSetOrangerbase 8%N; WorkerStart].
Proof.
  destruct (mining_resumes_after_sync newLoop false [StartReq 7%N; StopReq; StartReq 8%N]
              FailedEvent) as (calls & Hcalls & _); try reflexivity.
  - by left.
  - exists calls. exact Hcalls.
Defined.

End MinerFacts.

(** ** Sorting hashes *)

Module SnapshotSortFacts.
Import SnapshotSort.

Lemma to_N_inj x y : Byte.to_N x = Byte.to_N y -> x = y.
Proof.
  intros Heq. pose proof (Byte.of_to_N x) as Hx. rewrite Heq, Byte.of_to_N in Hx.
  congruence.
Qed.

Lemma bytesCompare_eq a b : bytesCompare a b = Eq <-> a = b.
Proof.
  revert b. induction a as [|x a IH]; intros [|y b]; cbn; try (split; done).
  destruct (N.compare_spec (Byte.to_N x) (Byte.to_N y)) as [Heq | Hlt | Hgt].
  - apply to_N_inj in Heq as ->. rewrite IH. split; congruence.
  - split; [done |]. intros [= -> _]. lia.
  - split; [done |]. intros [= -> _]. lia.
Qed.

Lemma bytesCompare_antisym a b : bytesCompare b a = CompOpp (bytesCompare a b).
Proof.
  revert b. induction a as [|x a IH]; intros [|y b]; cbn; try done.
  rewrite (N.compare_antisym (Byte.to_N x) (Byte.to_N y)).
  destruct (Byte.to_N x ?= Byte.to_N y)%N; cbn; [apply IH | done | done].
Qed.

Lemma bytesCompare_trans a b c :
  bytesCompare a b = Lt -> bytesCompare b c = Lt -> bytesCompare a c = Lt.
Proof.
  revert b c. induction a as [|x a IH]; intros [|y b] [|z c]; cbn; try done.
  destruct (N.compare_spec (Byte.to_N x) (Byte.to_N y)) as [Hxy | Hxy | Hxy];
    destruct (N.compare_spec (Byte.to_N y) (Byte.to_N z)) as [Hyz | Hyz | Hyz];
    try done; intros H1 H2.
  - rewrite Hxy, Hyz, N.compare_refl. by eapply IH.
  - rewrite Hxy. by apply N.compare_lt_iff in Hyz as ->.
  - rewrite <- Hyz. by apply N.compare_lt_iff in Hxy as ->.
  - assert (Hxz : (Byte.to_N x < Byte.to_N z)%N) by lia.
    by apply N.compare_lt_iff in Hxz as ->.
Qed.

Lemma index_in_range (hs : hashes) i :
  0 <= i < Len hs -> exists a, index hs i = Some a /\ hs !! Z.to_nat i = Some a.
Proof.
  unfold index, Len. intros Hi.
  destruct (Z.ltb_spec i 0); [lia |].
  destruct (lookup_lt_is_Some_2 hs (Z.to_nat i)) as [a Ha]; [lia |]. eauto.
Qed.

Lemma index_out_of_range (hs : hashes) i : i < 0 \/ Len hs <= i -> index hs i = None.
Proof.
  unfold index, Len. intros Hi. destruct (Z.ltb_spec i 0); [done |].
  apply lookup_ge_None. lia.
Qed.

(** X18. On valid indexes [Less] is a strict total order on the hashes of the
    slice, as sorting needs: no element is below itself, the relation is
    asymmetric and transitive, and of two positions holding different hashes
    one is below the other. An index out of range makes [Less] panic. *)
Theorem Less_strict_total_order (hs : hashes) i j k :
  (0 <= i < Len hs -> 0 <= j < Len hs -> 0 <= k < Len hs ->
     Less hs i i = Some false /\
     is_Some (Less hs i j) /\
     (Less hs i j = Some true -> Less hs j i = Some false) /\
     (Less hs i j = Some true -> Less hs j k = Some true -> Less hs i k = Some true) /\
     (index hs i <> index hs j -> Less hs i j = Some true \/ Less hs j i = Some true)) /\
  (i < 0 \/ Len hs <= i \/ j < 0 \/ Len hs <= j -> Less hs i j = None).
Proof.
  split.
  - intros Hi Hj Hk.
    destruct (index_in_range hs i Hi) as (a & Ha & _).
    destruct (index_in_range hs j Hj) as (b & Hb & _).
    destruct (index_in_range hs k Hk) as (c & Hc & _).
    unfold Less. rewrite Ha, Hb, Hc.
    split; [| split; [| split; [| split]]].
    + assert (Hrefl : bytesCompare a a = Eq) by (by apply bytesCompare_eq).
      by rewrite Hrefl.
    + eauto.
    + rewrite (bytesCompare_antisym a b).
      by destruct (bytesCompare a b).
    + destruct (bytesCompare a b) eqn:Hab; try done.
      destruct (bytesCompare b c) eqn:Hbc; try done.
      intros _ _. by rewrite (bytesCompare_trans a b c).
    + intros Hne. rewrite (bytesCompare_antisym a b).
      destruct (bytesCompare a b) eqn:Hab; cbn; [| by left | by right].
      apply bytesCompare_eq in Hab. congruence.
  - intros Hout. unfold Less.
    destruct Hout as [Hout | [Hout | Hout]].
    + by rewrite (index_out_of_range hs i) by lia.
    + by rewrite (index_out_of_range hs i) by lia.
    + rewrite (index_out_of_range hs j) by lia. by destruct (index hs i).
Qed.

Lemma Less_strict_total_order_witness :
  Less sampleHashes 2 0 = Some true /\ Less sampleHashes 0 3 = None.
Proof.
  assert (H0 : 0 <= 0 < Len sampleHashes) by (vm_compute; split; congruence).
  assert (H1 : 0 <= 1 < Len sampleHashes) by (vm_compute; split; congruence).
  assert (H2 : 0 <= 2 < Len sampleHashes) by (vm_compute; split; congruence).
  destruct (Less_strict_total_order sampleHashes 2 1 0) as [Hin _].
  destruct (Hin H2 H1 H0) as (_ & _ & _ & Htrans & _).
  split.
  - apply Htrans; reflexivity.
  - apply (Less_strict_total_order sampleHashes 0 3 0). right. right. right.
    vm_compute. discriminate.
Defined.

(** X19. On valid indexes [Swap] exchanges the two elements and nothing else:
    the slice keeps its length and its elements (it is a permutation of the
    old one), the two positions hold each other's old hash, every other
    position is untouched, and swapping again restores the slice. An index
    out of range makes [Swap] panic. *)
Theorem Swap_exchanges (hs : hashes) i j :
  (0 <= i < Len hs -> 0 <= j < Len hs ->
     exists hs',
       Swap hs i j = Some hs' /\
       Len hs' = Len hs /\ hs' ≡ₚ hs /\
       index hs' i = index hs j /\ index hs' j = index hs i /\
       (forall k, k <> i -> k <> j -> index hs' k = index hs k) /\
       Swap hs' i j = Some hs) /\
  (i < 0 \/ Len hs <= i \/ j < 0 \/ Len hs <= j -> Swap hs i j = None).
Proof.
  split.
  - intros Hi Hj.
    destruct (index_in_range hs i Hi) as (a & Ha & Hla).
    destruct (index_in_range hs j Hj) as (b & Hb & Hlb).
    unfold Swap at 1. rewrite Ha, Hb. eexists. split; [reflexivity |].
    unfold hashes in *.
    set (hs' := <[Z.to_nat j := a]> (<[Z.to_nat i := b]> hs)).
    assert (Hlen : length hs' = length hs) by (unfold hs'; by rewrite !length_insert).
    assert (Hj' : hs' !! Z.to_nat j = Some a).
    { unfold hs'. apply list_lookup_insert_eq. rewrite length_insert.
      by eapply lookup_lt_Some. }
    assert (Hi' : hs' !! Z.to_nat i = Some b).
    { destruct (decide (Z.to_nat i = Z.to_nat j)) as [Heq | Hne].
      - rewrite Heq, Hj'. rewrite Heq in Hla. congruence.
      - unfold hs'. rewrite list_lookup_insert_ne by done.
        apply list_lookup_insert_eq. by eapply lookup_lt_Some. }
    assert (Hidx : forall k, index hs' k
                     = if k <? 0 then None else hs' !! Z.to_nat k) by done.
    split; [unfold Len; by rewrite Hlen |].
    split; [by apply Permutation_insert_swap |].
    split; [rewrite Hidx, Hi'; destruct (Z.ltb_spec i 0); [lia | done] |].
    split; [rewrite Hidx, Hj'; destruct (Z.ltb_spec j 0); [lia | done] |].
    split.
    + intros k Hki Hkj. unfold index, hashes. destruct (Z.ltb_spec k 0); [done |].
      assert (Hnj : Z.to_nat j <> Z.to_nat k) by lia.
      assert (Hni : Z.to_nat i <> Z.to_nat k) by lia.
      unfold hs'. by rewrite !list_lookup_insert_ne.
    + unfold Swap, index, hashes.
      destruct (Z.ltb_spec i 0); [lia |]. destruct (Z.ltb_spec j 0); [lia |].
      rewrite Hi', Hj'. f_equal.
      apply list_eq. intros n.
      destruct (decide (n = Z.to_nat j)) as [-> | Hnj].
      * rewrite list_lookup_insert_eq; [done |].
        rewrite length_insert, Hlen. by eapply lookup_lt_Some.
      * rewrite list_lookup_insert_ne by done.
        destruct (decide (n = Z.to_nat i)) as [-> | Hni].
        -- rewrite list_lookup_insert_eq; [done |]. rewrite Hlen.
           by eapply lookup_lt_Some.
        -- rewrite list_lookup_insert_ne by done.
           unfold hs'. by rewrite !list_lookup_insert_ne by done.
  - intros Hout. unfold Swap.
    destruct Hout as [Hout | [Hout | Hout]].
    + by rewrite (index_out_of_range hs i) by lia.
    + by rewrite (index_out_of_range hs i) by lia.
    + rewrite (index_out_of_range hs j) by lia. by destruct (index hs i).
Qed.

Lemma Swap_exchanges_witness :
  exists hs', Swap sampleHashes 0 2 = Some hs' /\ Swap hs' 0 2 = Some sampleHashes.
Proof.
  assert (H0 : 0 <= 0 < Len sampleHashes) by (vm_compute; split; congruence).
  assert (H2 : 0 <= 2 < Len sampleHashes) by (vm_compute; split; congruence).
  destruct (Swap_exchanges sampleHashes 0 2) as [Hin _].
  destruct (Hin H0 H2) as (hs' & Hswap & _ & _ & _ & _ & _ & Hback).
  exists hs'. split; [exact Hswap | exact Hback].
Defined.

End SnapshotSortFacts.

(** ** The key-value notary *)

Module NotaryFacts.
Import Notary.

Lemma Accessed_loop (db acc : gmap string (list Byte.byte)) (order : list string) key :
  fold_left (fun (acc : gmap string (list Byte.byte)) key =>
               <[key := default [] (db !! key)]> acc) order acc !! key
  = if decide (key ∈ order) then Some (default [] (db !! key)) else acc !! key.
Proof.
  revert acc. induction order as [|k order IH]; intros acc; cbn [fold_left].
  - rewrite decide_False by apply not_elem_of_nil. done.
  - rewrite IH. destruct (decide (key ∈ order)) as [Hin | Hnin].
    + rewrite decide_True by (by apply list_elem_of_further). done.
    + destruct (decide (key = k)) as [-> | Hne].
      * rewrite decide_True by apply list_elem_of_here. apply lookup_insert_eq.
      * rewrite decide_False by (intros [? | ?]%elem_of_cons; done).
        by rewrite lookup_insert_ne.
Qed.

Lemma gets_reads keys k :
  reads (gets keys k) = list_to_set keys ∪ reads k /\
  KeyValueReader (gets keys k) = KeyValueReader k.
Proof.
  revert k. induction keys as [|key keys IH]; intros k; cbn [gets].
  - split; [| done]. by rewrite list_to_set_nil, (left_id_L ∅ (∪)).
  - destruct (IH (Get key k).1) as [Hr Hdb]. rewrite Hr, Hdb.
    cbn [Get fst reads KeyValueReader].
    split; [| done]. rewrite list_to_set_cons.
    by rewrite (assoc_L (∪)), (comm_L (∪) (list_to_set keys) {[key]}).
Qed.

(** X20. The notary is transparent and its snapshot holds what was read and
    nothing else. [Get] answers what the wrapped store answers and never
    changes that store. After any sequence of reads on a fresh notary,
    [Accessed] returns, whatever order it walks the recorded keys in, a store
    whose keys are exactly the keys that were read: a key found in the
    wrapped store comes with its value there, a key that was read but is
    missing there comes with the empty value, and a key that was never read
    is absent. *)
Theorem Accessed_exact db keys order :
  readsOrder (gets keys (NewKeyValueNotary db)) order ->
  (forall key k, (Get key k).2 = KeyValueReader k !! key /\
                 KeyValueReader (Get key k).1 = KeyValueReader k) /\
  KeyValueReader (gets keys (NewKeyValueNotary db)) = db /\
  (forall key, key ∈ keys ->
     Accessed order (gets keys (NewKeyValueNotary db)) !! key
     = Some (default [] (db !! key))) /\
  (forall key, key ∉ keys ->
     Accessed order (gets keys (NewKeyValueNotary db)) !! key = None) /\
  (forall key v, db !! key = Some v -> key ∈ keys ->
     Accessed order (gets keys (NewKeyValueNotary db)) !! key = Some v).
Proof.
  intros Hord.
  destruct (gets_reads keys (NewKeyValueNotary db)) as [Hreads Hdb].
  cbn in Hreads, Hdb.
  assert (Hmem : forall key, key ∈ order <-> key ∈ keys).
  { intros key. unfold readsOrder in Hord. rewrite Hord, elem_of_elements, Hreads.
    rewrite elem_of_union, elem_of_list_to_set. split; [| by left].
    intros [? | ?%not_elem_of_empty]; done. }
  assert (Hlook : forall key,
            Accessed order (gets keys (NewKeyValueNotary db)) !! key
            = if decide (key ∈ order) then Some (default [] (db !! key)) else None).
  { intros key. unfold Accessed. rewrite Hdb, Accessed_loop.
    by rewrite lookup_empty. }
  split; [done |]. split; [exact Hdb |]. split; [| split].
  - intros key Hin. rewrite Hlook, decide_True by (by apply Hmem). done.
  - intros key Hnin. rewrite Hlook, decide_False; [done |]. by rewrite Hmem.
  - intros key v Hv Hin. rewrite Hlook, decide_True by (by apply Hmem).
    by rewrite Hv.
Qed.

Lemma Accessed_exact_witness :
  Accessed (elements (reads (gets ["b"; "z"] (NewKeyValueNotary sampleDb))))
           (gets ["b"; "z"] (NewKeyValueNotary sampleDb)) !! "a" = None.
Proof.
  apply (Accessed_exact sampleDb ["b"; "z"]).
  - unfold readsOrder. reflexivity.
  - intros [Hin | Hin%list_elem_of_singleton]%elem_of_cons; discriminate.
Defined.

Example Accessed_sample :
  Accessed ["z"; "b"] (gets ["b"; "z"] (NewKeyValueNotary sampleDb))
  = {[ "b" := [Byte.x02]; "z" := [] ]}.
Proof. vm_compute. reflexivity. Qed.

End NotaryFacts.
